(** * websocket-pubsub: the submission queue, the worker loop, the connection
      registry and the result router

    A shallow embedding of [pubsub/backend/src/index.ts] and
    [pubsub/worker/src/index.ts].  The two processes share one Redis broker;
    the backend keeps the map [wsClients] from user id to WebSocket. *)

From Stdlib Require Import Ascii String.
From stdpp Require Import base option list strings gmap fin_maps.

Local Open Scope string_scope.
Local Open Scope list_scope.

(** ** JavaScript values *)

(** A property of a payload is a string or is missing: [None] is
    JavaScript's [undefined]. *)
Abbreviation jsval := (option string) (only parsing).
Abbreviation undefined := (@None string) (only parsing).

(** An object is its list of properties in insertion order, which is the
    order [JSON.stringify] writes them in. *)
Abbreviation jsobj := (list (string * option string)) (only parsing).

(** [o.k]: the value of property [k], [undefined] when [o] has none. *)
Fixpoint prop (o : jsobj) (k : string) : jsval :=
  match o with
  | [] => undefined
  | (k', v) :: o' => if decide (k' = k) then v else prop o' k
  end.

(** Truthiness of a string-or-undefined value: [!v] is [negb (truthy v)]. *)
Definition truthy (v : jsval) : bool :=
  match v with
  | Some s => negb (String.eqb s "")
  | None => false
  end.

(** A WebSocket object is known by its identity; [===] on two sockets
    compares identities. *)
Abbreviation WebSocket := nat (only parsing).

Inductive ReadyState := CONNECTING | OPEN | CLOSING | CLOSED.

#[global] Instance ReadyState_eq_dec : EqDecision ReadyState.
Proof. solve_decision. Defined.

(** What [JSON.parse] and the Redis client throw. *)
Inductive exn := SyntaxError | RedisError.

#[global] Instance exn_eq_dec : EqDecision exn.
Proof. solve_decision. Defined.

(** ** The JSON built-ins

    [JSON.parse] and [JSON.stringify] belong to the language, not to the
    repository: the handlers are stated over any implementation of them.
    [JSON_parse s = None] is the [SyntaxError] thrown on text that is not
    JSON.  The payloads are the objects the types [SubmitPayload] and
    [ResultPayload] declare, whose properties are strings; a property may
    be missing, since nothing checks a parsed text against its type.  A
    text that parses to [null] makes the first property access throw in
    the place where the parse would have: the model counts it with the
    texts that do not parse. *)
Class JsonCodec := {
  JSON_parse : string → option jsobj;
  JSON_stringify : jsobj → string
}.

(** ** Console output, one constructor per call site *)
Inductive LogLine :=
  | LogConnected
  | LogRegistered (username userId : jsval)
  | LogSubmitHit (body : jsobj)
  | LogQueue (username userId problemTd : jsval)
  | ErrSubmit (err : exn)
  | LogResultSent (username : jsval)
  | LogWorkerJob (username problemTd : jsval)
  | LogWorkerDone (username : jsval).

(** The commands the broker has executed, as [MONITOR] would show them:
    a push with its element, a blocking pop with the element it returned. *)
Inductive RedisCmd :=
  | RPUSH (key element : string)
  | BLPOP (key element : string).

(** ** The state the handlers run on *)
Record World := mkWorld {
  (** the broker answers commands *)
  available : bool;
  (** the Redis lists, by key; an absent key is the empty list *)
  lists : gmap string (list string);
  (** the commands executed so far, oldest first *)
  monitor : list RedisCmd;
  (** [wsClients], key → userId *)
  wsClients : gmap (option string) nat;
  (** [ws.readyState] of every socket *)
  readyState : WebSocket → ReadyState;
  (** the calls to [ws.send], oldest first *)
  outbox : list (WebSocket * string);
  (** the calls to [console.log] and [console.error], oldest first *)
  console : list LogLine
}.

Definition set_lists (f : gmap string (list string) → gmap string (list string))
    (w : World) : World :=
  mkWorld (available w) (f (lists w)) (monitor w) (wsClients w) (readyState w)
          (outbox w) (console w).

Definition set_monitor (f : list RedisCmd → list RedisCmd) (w : World) : World :=
  mkWorld (available w) (lists w) (f (monitor w)) (wsClients w) (readyState w)
          (outbox w) (console w).

Definition set_wsClients (f : gmap (option string) nat → gmap (option string) nat)
    (w : World) : World :=
  mkWorld (available w) (lists w) (monitor w) (f (wsClients w)) (readyState w)
          (outbox w) (console w).

Definition set_outbox (f : list (WebSocket * string) → list (WebSocket * string))
    (w : World) : World :=
  mkWorld (available w) (lists w) (monitor w) (wsClients w) (readyState w)
          (f (outbox w)) (console w).

Definition set_console (f : list LogLine → list LogLine) (w : World) : World :=
  mkWorld (available w) (lists w) (monitor w) (wsClients w) (readyState w)
          (outbox w) (f (console w)).

Definition set_available (b : bool) (w : World) : World :=
  mkWorld b (lists w) (monitor w) (wsClients w) (readyState w) (outbox w)
          (console w).

Definition set_readyState (ws : WebSocket) (st : ReadyState) (w : World) : World :=
  mkWorld (available w) (lists w) (monitor w) (wsClients w)
          (λ x, if decide (x = ws) then st else readyState w x)
          (outbox w) (console w).

(** [LRANGE key 0 -1] *)
Definition lrange (key : string) (w : World) : list string :=
  default [] (lists w !! key).

(** ** Handlers as state transformers that may throw or wait *)

(** A handler returns, throws, or is left waiting on a blocking pop. *)
Inductive Result (A : Type) :=
  | Ok (a : A) (w : World)
  | Throw (e : exn) (w : World)
  | Pending (w : World).
Arguments Ok {A} a w.
Arguments Throw {A} e w.
Arguments Pending {A} w.

Definition M (A : Type) : Type := World → Result A.

#[global] Instance M_ret : MRet M := λ A a w, Ok a w.

#[global] Instance M_bind : MBind M := λ A B f m w,
  match m w with
  | Ok a w' => f a w'
  | Throw e w' => Throw e w'
  | Pending w' => Pending w'
  end.

(** [try { m } catch (err) { h err }] *)
Definition try_catch {A} (m : M A) (h : exn → M A) : M A :=
  λ w, match m w with
       | Throw e w' => h e w'
       | r => r
       end.

Definition gets {A} (f : World → A) : M A := λ w, Ok (f w) w.
Definition modify (f : World → World) : M unit := λ w, Ok tt (f w).

(** The state a result ends in. *)
Definition final {A} (r : Result A) : World :=
  match r with Ok _ w | Throw _ w | Pending w => w end.

(** ** Redis list commands *)

(** [client.rPush(key, element)]: append at the tail; rejects when the
    broker is unreachable. *)
Definition rPush (key element : string) : M unit :=
  λ w, if available w
       then Ok tt (set_monitor (λ c, c ++ [RPUSH key element])
                    (set_lists (λ l, <[key := default [] (l !! key) ++ [element]]> l) w))
       else Throw RedisError w.

(** [client.blPop(key, 0)]: take the head; with timeout 0 the call waits
    until the list is non-empty and never yields null. *)
Definition blPop (key : string) : M string :=
  λ w, if available w
       then match lrange key w with
            | [] => Pending w
            | element :: rest =>
                Ok element (set_monitor (λ c, c ++ [BLPOP key element])
                              (set_lists (λ l, <[key := rest]> l) w))
            end
       else Throw RedisError w.

Definition console_log (l : LogLine) : M unit :=
  modify (set_console (λ c, c ++ [l])).

(** [ws.send(data)] *)
Definition ws_send (ws : WebSocket) (data : string) : M unit :=
  modify (set_outbox (λ o, o ++ [(ws, data)])).

(** [Map.prototype.forEach] with a callback [(value, key)] that may delete
    the entry it is visiting: every entry of the map is visited once. *)
Definition Map_forEach {K V} `{Countable K}
    (callback : V → K → gmap K V → gmap K V) (m : gmap K V) : gmap K V :=
  map_fold (λ k v acc, callback v k acc) m m.

Section Handlers.
Context `{JsonCodec}.

Definition parse (text : string) : M jsobj :=
  λ w, match JSON_parse text with
       | Some o => Ok o w
       | None => Throw SyntaxError w
       end.

(** *** backend: [wss.on('connection', ...)], before it installs the
    two listeners below on [ws] *)
Definition wss_on_connection (ws : WebSocket) : M unit :=
  console_log LogConnected.

(** *** backend: [ws.on('message', ...)] *)
Definition ws_on_message (ws : WebSocket) (data : string) : M unit :=
  msg ← parse data;
  if decide (prop msg "type" = Some "register") then
    modify (set_wsClients (λ m, <[prop msg "userId" := ws]> m));;
    console_log (LogRegistered (prop msg "username") (prop msg "userId"))
  else mret tt.

(** *** backend: [ws.on('close', ...)] *)
Definition ws_on_close (ws : WebSocket) : M unit :=
  modify (set_wsClients
    (Map_forEach (λ client userId m,
       if decide (client = ws) then delete userId m else m))).

(** *** backend: [app.post('/submit', ...)] *)
Record Response := mkResponse { status : nat; message : string }.

Definition submit (body : jsobj) : M Response :=
  try_catch
    (console_log (LogSubmitHit body);;
     let payload := body in
     if negb (truthy (prop payload "userId"))
        || negb (truthy (prop payload "username"))
        || negb (truthy (prop payload "problemTd"))
     then mret (mkResponse 400 "Missing fields")
     else
       rPush "problems" (JSON_stringify payload);;
       console_log (LogQueue (prop payload "username") (prop payload "userId")
                             (prop payload "problemTd"));;
       mret (mkResponse 200 "✅ Submitted"))
    (λ err,
       console_log (ErrSubmit err);;
       mret (mkResponse 500 "Server error")).

(** *** backend: [listenForResults]

    [n] bounds the number of activations: the function calls itself at
    the end of its body, so it runs until it throws or waits.  The guard
    [if (!res) return] is never taken, [blPop] with timeout 0 yielding no
    null. *)
Fixpoint listenForResults (n : nat) : M unit :=
  match n with
  | 0 => mret tt
  | S n' =>
      res ← blPop "results";
      result ← parse res;
      ws ← gets (λ w, wsClients w !! prop result "userId");
      (match ws with
       | Some ws =>
           st ← gets (λ w, readyState w ws);
           if decide (st = OPEN) then
             ws_send ws (JSON_stringify result);;
             console_log (LogResultSent (prop result "username"))
           else mret tt
       | None => mret tt
       end);;
      listenForResults n'
  end.

(** *** worker: the [while (true)] loop of [main], entered once
    [connectRedis] has connected; [n] bounds the number of iterations.
    The execution of a job is the fixed delay of the source, which changes
    no state; [if (!res) continue] is never taken. *)
Fixpoint main (n : nat) : M unit :=
  match n with
  | 0 => mret tt
  | S n' =>
      res ← blPop "problems";
      payload ← parse res;
      console_log (LogWorkerJob (prop payload "username") (prop payload "problemTd"));;
      rPush "results"
        (JSON_stringify [("userId", prop payload "userId");
                         ("username", prop payload "username");
                         ("problemTd", prop payload "problemTd");
                         ("status", Some "Accepted ✅")]);;
      console_log (LogWorkerDone (prop payload "username"));;
      main n'
  end.

End Handlers.

(** ** The two processes under their event loops

    The backend runs its listeners and the result loop on one thread; the
    worker is a second process.  Neither installs a handler for uncaught
    exceptions or unhandled rejections, so an exception that leaves a
    listener, or a rejection of [listenForResults] or [main], ends the
    process it happens in. *)
Inductive event :=
  | Connection (ws : WebSocket)
  | Message (ws : WebSocket) (data : string)
  | Close (ws : WebSocket)
  | Post (body : jsobj)
  | RouterTurn
  | WorkerTurn
  | SocketState (ws : WebSocket) (st : ReadyState)
  | Broker (up : bool).

Record System := mkSystem {
  world : World;
  backend_alive : bool;
  worker_alive : bool
}.

Section Loop.
Context `{JsonCodec}.

(** A listener of the backend has run. *)
Definition backend_ran {A} (s : System) (r : Result A) : System :=
  match r with
  | Ok _ w => mkSystem w true (worker_alive s)
  | Pending w => mkSystem w true (worker_alive s)
  | Throw _ w => mkSystem w false (worker_alive s)
  end.

Definition worker_ran {A} (s : System) (r : Result A) : System :=
  match r with
  | Ok _ w => mkSystem w (backend_alive s) true
  | Pending w => mkSystem w (backend_alive s) true
  | Throw _ w => mkSystem w (backend_alive s) false
  end.

Definition step (s : System) (ev : event) : System :=
  match ev with
  | Connection ws =>
      if backend_alive s then backend_ran s (wss_on_connection ws (world s)) else s
  | Message ws data =>
      if backend_alive s then backend_ran s (ws_on_message ws data (world s)) else s
  | Close ws =>
      (* the socket is CLOSED when 'close' is emitted *)
      let w := set_readyState ws CLOSED (world s) in
      if backend_alive s then backend_ran s (ws_on_close ws w)
      else mkSystem w false (worker_alive s)
  | Post body =>
      if backend_alive s then backend_ran s (submit body (world s)) else s
  | RouterTurn =>
      if backend_alive s then backend_ran s (listenForResults 1 (world s)) else s
  | WorkerTurn =>
      if worker_alive s then worker_ran s (main 1 (world s)) else s
  | SocketState ws st =>
      mkSystem (set_readyState ws st (world s)) (backend_alive s) (worker_alive s)
  | Broker up =>
      mkSystem (set_available up (world s)) (backend_alive s) (worker_alive s)
  end.

Definition run (s : System) (evs : list event) : System :=
  foldl step s evs.

End Loop.

(** The elements pushed to, and popped from, the list [key], in the order
    the broker executed the commands. *)
Definition pushed (key : string) (w : World) : list string :=
  omap (λ c, match c with
             | RPUSH k e => if decide (k = key) then Some e else None
             | BLPOP _ _ => None
             end) (monitor w).

Definition popped (key : string) (w : World) : list string :=
  omap (λ c, match c with
             | BLPOP k e => if decide (k = key) then Some e else None
             | RPUSH _ _ => None
             end) (monitor w).

(** ** A codec to run the handlers on: objects whose members are strings *)
Module FlatJson.

Definition dquote : ascii := Ascii.ascii_of_nat 34.
Definition backslash : ascii := Ascii.ascii_of_nat 92.

Fixpoint escape (s : string) : string :=
  match s with
  | EmptyString => EmptyString
  | String c s' =>
      if decide (c = dquote ∨ c = backslash)
      then String backslash (String c (escape s'))
      else String c (escape s')
  end.

Definition quote (s : string) : string :=
  String dquote (escape s +:+ String dquote EmptyString).

(** Members with an undefined value are left out, as [JSON.stringify]
    does. *)
Fixpoint members (o : jsobj) : list string :=
  match o with
  | [] => []
  | (k, Some v) :: o' => (quote k +:+ ":" +:+ quote v) :: members o'
  | (_, None) :: o' => members o'
  end.

Definition stringify (o : jsobj) : string :=
  "{" +:+ String.concat "," (members o) +:+ "}".

(** The text after an opening quote: the string it spells and the rest
    after the closing quote. *)
Fixpoint read_string (acc : list ascii) (s : string) : option (string * string) :=
  match s with
  | EmptyString => None
  | String c s' =>
      if decide (c = dquote) then Some (string_of_list_ascii (rev acc), s')
      else if decide (c = backslash) then
        match s' with
        | String c' s'' => read_string (c' :: acc) s''
        | EmptyString => None
        end
      else read_string (c :: acc) s'
  end.

(** A later member of the same name wins, as in [JSON.parse]. *)
Definition add_member (k v : string) (o : jsobj) : jsobj :=
  if decide (k ∈ o.*1) then o else (k, Some v) :: o.

Fixpoint read_members (fuel : nat) (s : string) : option jsobj :=
  match fuel with
  | 0 => None
  | S fuel' =>
      match s with
      | String c s1 =>
          if decide (c = dquote) then
            '(k, s2) ← read_string [] s1;
            match s2 with
            | String ":" (String c' s3) =>
                if decide (c' = dquote) then
                  '(v, s4) ← read_string [] s3;
                  match s4 with
                  | String "}" EmptyString => Some [(k, Some v)]
                  | String "," s5 => add_member k v <$> read_members fuel' s5
                  | _ => None
                  end
                else None
            | _ => None
            end
          else None
      | EmptyString => None
      end
  end.

Definition parse (s : string) : option jsobj :=
  match s with
  | String "{" (String "}" EmptyString) => Some []
  | String "{" s' => read_members (String.length s) s'
  | _ => None
  end.

Definition codec : JsonCodec :=
  {| JSON_parse := parse; JSON_stringify := stringify |}.

End FlatJson.

(** ** Notions the properties are stated with *)

(** A handler keeps [P]: from a state where [P] holds it ends, however it
    ends, in a state where [P] holds. *)
Definition preserves {A} (P : World → Prop) (m : M A) : Prop :=
  ∀ w, P w → P (final (m w)).

(** The events that take the entry of identity [u] away from socket [ws]:
    a registration of [u] on another socket, and the close of [ws]. *)
Definition supersedes `{JsonCodec} (u : option string) (ws : WebSocket)
    (ev : event) : bool :=
  match ev with
  | Message ws' data =>
      match JSON_parse data with
      | Some msg =>
          bool_decide (prop msg "type" = Some "register"
                       ∧ prop msg "userId" = u ∧ ws' ≠ ws)
      | None => false
      end
  | Close ws' => bool_decide (ws' = ws)
  | _ => false
  end.

(** The registry has identity [u] on socket [ws]. *)
Definition registered (u : option string) (ws : WebSocket) (w : World) : Prop :=
  wsClients w !! u = Some ws.

(** The three fields [app.post('/submit')] requires, as its guard reads
    them. *)
Definition required_fields (body : jsobj) : bool :=
  truthy (prop body "userId") && truthy (prop body "username")
  && truthy (prop body "problemTd").

(** The object the worker serializes for a job. *)
Definition result_of (payload : jsobj) : jsobj :=
  [("userId", prop payload "userId");
   ("username", prop payload "username");
   ("problemTd", prop payload "problemTd");
   ("status", Some "Accepted ✅")].

(** The list [key] holds, in order, what was queued and has not been
    popped: [q0] is its content when the monitor started. *)
Definition fifo_inv (key : string) (q0 : list string) (w : World) : Prop :=
  q0 ++ pushed key w = popped key w ++ lrange key w.

(** ** A small deployment to run the handlers on *)
Module Scenario.

(** The broker is up, its lists are empty, nobody is registered and
    every socket is open. *)
Definition w0 : World := mkWorld true ∅ [] ∅ (λ _, OPEN) [] [].

Definition s0 : System := mkSystem w0 true true.

Definition registration (userId username : string) : string :=
  FlatJson.stringify
    [("type", Some "register"); ("userId", Some userId);
     ("username", Some username)].

Definition job (userId username problemTd : string) : jsobj :=
  [("userId", Some userId); ("username", Some username);
   ("problemTd", Some problemTd); ("code", Some "return 1");
   ("language", Some "js")].

Definition alice_job : jsobj := job "u1" "alice" "two_sum".
Definition bob_job : jsobj := job "u2" "bob" "three_sum".

(** The serialized result the worker produces for a job. *)
Definition result_text (j : jsobj) : string :=
  FlatJson.stringify (result_of j).

(** Sockets 1 and 2 registered as u1 and u2, and alice's job done: its
    result waits in the list of results. *)
Definition routed : System :=
  @run FlatJson.codec s0
    [Connection 1; Message 1 (registration "u1" "alice");
     Connection 2; Message 2 (registration "u2" "bob");
     Post alice_job; WorkerTurn].

(** The same with socket 1 closing, not yet closed. *)
Definition closing : System :=
  @step FlatJson.codec routed (SocketState 1 CLOSING).

(** u1 registered on socket 1 and then again on socket 3, socket 1 still
    open; socket 1 also stands for u1b. *)
Definition reconnected : System :=
  @run FlatJson.codec s0
    [Connection 1; Message 1 (registration "u1" "alice");
     Message 1 (registration "u1b" "alice");
     Connection 2; Message 2 (registration "u2" "bob");
     Connection 3; Message 3 (registration "u1" "alice")].

(** The list of jobs holds a text that is not JSON, ahead of alice's
    job. *)
Definition poisoned : World :=
  mkWorld true {["problems" := ["oops"; FlatJson.stringify alice_job]]} []
          ∅ (λ _, OPEN) [] [].

End Scenario.

(** ** What the two loops do with a whole list *)

(** The call of [send] one activation of [listenForResults] makes for an
    element of the list of results, if it makes one: the registry and the
    ready states are read in [w]. *)
Definition delivery `{JsonCodec} (w : World) (element : string)
    : list (WebSocket * string) :=
  match JSON_parse element with
  | Some result =>
      match wsClients w !! prop result "userId" with
      | Some ws =>
          if decide (readyState w ws = OPEN)
          then [(ws, JSON_stringify result)] else []
      | None => []
      end
  | None => []
  end.

(** The line the result loop logs for an element it has sent. *)
Definition delivery_line `{JsonCodec} (w : World) (element : string)
    : list LogLine :=
  match JSON_parse element with
  | Some result =>
      match wsClients w !! prop result "userId" with
      | Some ws =>
          if decide (readyState w ws = OPEN)
          then [LogResultSent (prop result "username")] else []
      | None => []
      end
  | None => []
  end.

(** What one iteration of the worker pushes to the list of results for a
    job, and what it logs. *)
Definition outcome `{JsonCodec} (element : string) : list string :=
  match JSON_parse element with
  | Some payload => [JSON_stringify (result_of payload)]
  | None => []
  end.

Definition worker_lines `{JsonCodec} (element : string) : list LogLine :=
  match JSON_parse element with
  | Some payload =>
      [LogWorkerJob (prop payload "username") (prop payload "problemTd");
       LogWorkerDone (prop payload "username")]
  | None => []
  end.

(** The commands one iteration of the worker issues for a job. *)
Definition worker_cmds `{JsonCodec} (element : string) : list RedisCmd :=
  BLPOP "problems" element :: (RPUSH "results" <$> outcome element).

(** ** More deployments to run the handlers on *)
Module Batch.

(** Sockets 1 and 2 registered as u1 and u2, socket 2 closing; three jobs
    done, two of u1 around one of u2: their results wait in the list. *)
Definition three_results : System :=
  @run FlatJson.codec Scenario.s0
    [Connection 1; Message 1 (Scenario.registration "u1" "alice");
     Connection 2; Message 2 (Scenario.registration "u2" "bob");
     Post Scenario.alice_job; Post Scenario.bob_job;
     Post (Scenario.job "u1" "alice" "three_sum");
     WorkerTurn; WorkerTurn; WorkerTurn; SocketState 2 CLOSING].

(** The same with a text that is not JSON pushed to the list of results
    between the second and the third. *)
Definition poisoned_results : World :=
  set_lists
    (λ l, <["results" :=
              [Scenario.result_text Scenario.alice_job;
               Scenario.result_text Scenario.bob_job;
               "oops";
               Scenario.result_text (Scenario.job "u1" "alice" "three_sum")]]> l)
    (world three_results).

(** Three jobs queued, nothing done yet. *)
Definition three_jobs : World :=
  world (@run FlatJson.codec Scenario.s0
           [Post Scenario.alice_job; Post Scenario.bob_job;
            Post (Scenario.job "u1" "alice" "three_sum")]).

(** A text that is not JSON queued between the first job and the others. *)
Definition poisoned_jobs : World :=
  set_lists
    (λ l, <["problems" :=
              [FlatJson.stringify Scenario.alice_job; "oops";
               FlatJson.stringify Scenario.bob_job]]> l)
    Scenario.w0.

End Batch.

(** ** Registrations in a trace *)

(** The socket an event registers: a message that parses to a
    registration puts its socket into the registry. *)
Definition registers `{JsonCodec} (ev : event) : option WebSocket :=
  match ev with
  | Message ws data =>
      match JSON_parse data with
      | Some msg =>
          if decide (prop msg "type" = Some "register") then Some ws else None
      | None => None
      end
  | _ => None
  end.

(** Every socket in the registry and every socket sent to is in [R]. *)
Definition known_sockets (R : list WebSocket) (w : World) : Prop :=
  (∀ k ws, wsClients w !! k = Some ws → ws ∈ R)
  ∧ (∀ ws text, (ws, text) ∈ outbox w → ws ∈ R).

(** ** worker: [connectRedis]

    The loop calls [client.connect()] until a call succeeds, logging each
    failure and waiting two seconds after it.  [answers] is what the
    broker answers to the successive calls; the result is what the loop
    has logged and whether it has returned. *)
Inductive ConnectLine := LogRedisConnected | LogRetry.

Fixpoint connectRedis (answers : list bool) : list ConnectLine * bool :=
  match answers with
  | [] => ([], false)
  | true :: _ => ([LogRedisConnected], true)
  | false :: later =>
      let '(log, connected) := connectRedis later in
      (LogRetry :: log, connected)
  end.

(** The results pushed so far are the outcomes of the jobs popped so far. *)
Definition pipeline_inv `{JsonCodec} (w : World) : Prop :=
  pushed "results" w = flat_map outcome (popped "problems" w).

(** * The chat server

    A shallow embedding of the chat server's [index.ts]: the map [clients]
    from socket to user name, the two broadcast helpers and the listeners
    of a connection. *)
Module Chat.

(** An object handed to [JSON.stringify] before it is sent. *)
Inductive Data :=
  | Users (users : list (option string))
  | ChatMessage (name : string) (message : option string) (time : string)
  | SystemMessage (message : string).

(** [JSON.stringify] on these objects, a built-in as [JSON_stringify] is. *)
Class DataCodec := { stringify : Data → string }.

Inductive Line :=
  | LogClient (remoteAddress : string)
  | LogUsers (users : list (option string))
  | LogJoin (name : option string)
  | LogChat (sender : string) (message : option string)
  | ErrInvalid (err : exn)
  | LogLeave (user : string)
  | ErrSocket (err : string).

Record Server := mkServer {
  (** [wss.clients], in insertion order *)
  sockets : list nat;
  (** the map [clients], socket → name, in insertion order *)
  clients : list (nat * option string);
  (** [readyState] of every socket *)
  ready : nat → ReadyState;
  (** the calls to [send], oldest first *)
  sent : list (nat * string);
  (** the console, oldest first *)
  logs : list Line
}.

Definition set_clients (f : list (nat * option string) → list (nat * option string))
    (s : Server) : Server :=
  mkServer (sockets s) (f (clients s)) (ready s) (sent s) (logs s).

Definition send (ws : nat) (data : string) (s : Server) : Server :=
  mkServer (sockets s) (clients s) (ready s) (sent s ++ [(ws, data)]) (logs s).

Definition log (l : Line) (s : Server) : Server :=
  mkServer (sockets s) (clients s) (ready s) (sent s) (logs s ++ [l]).

(** [Map.prototype.get], [set] and [delete] on a map kept in insertion
    order: [set] on a key the map has keeps the key's place. *)
Fixpoint Map_get {V} (k : nat) (m : list (nat * V)) : option V :=
  match m with
  | [] => None
  | (k', v) :: m' => if decide (k' = k) then Some v else Map_get k m'
  end.

Fixpoint Map_set {V} (k : nat) (v : V) (m : list (nat * V)) : list (nat * V) :=
  match m with
  | [] => [(k, v)]
  | (k', v') :: m' =>
      if decide (k' = k) then (k, v) :: m' else (k', v') :: Map_set k v m'
  end.

Definition Map_delete {V} (k : nat) (m : list (nat * V)) : list (nat * V) :=
  filter (λ kv, kv.1 ≠ k) m.

Section Listeners.
Context `{JsonCodec} `{DataCodec}.

(** [broadcast(data)] *)
Definition broadcast (data : Data) (s : Server) : Server :=
  let payload := stringify data in
  foldl (λ s' client,
           if decide (ready s' client = OPEN) then send client payload s' else s')
        s (sockets s).

(** The calls of [send] a broadcast of [data] makes in state [s]: one for
    each open socket of [wss.clients], in the order of the set. *)
Definition frames (data : Data) (s : Server) : list (nat * string) :=
  (λ c, (c, stringify data)) <$> filter (λ c, ready s c = OPEN) (sockets s).

(** [broadcastUsers()] *)
Definition broadcastUsers (s : Server) : Server :=
  let users := (clients s).*2 in
  broadcast (Users users) (log (LogUsers users) s).

(** [clients.get(ws)?.name || 'Unknown'] *)
Definition sender_of (ws : nat) (s : Server) : string :=
  match Map_get ws (clients s) with
  | Some (Some name) => if String.eqb name "" then "Unknown" else name
  | _ => "Unknown"
  end.

(** [ws.on('message', ...)]; [now] is what
    [new Date().toLocaleTimeString()] gives when the message is handled.
    The body is in a [try] whose [catch] logs what was thrown: the one
    thing that throws is the parse. *)
Definition chat_on_message (ws : nat) (data : string) (now : string)
    (s : Server) : Server :=
  match JSON_parse data with
  | Some payload =>
      if decide (prop payload "type" = Some "join") then
        broadcastUsers
          (log (LogJoin (prop payload "name"))
             (set_clients (Map_set ws (prop payload "name")) s))
      else if decide (prop payload "type" = Some "message") then
        let sender := sender_of ws s in
        broadcast (ChatMessage sender (prop payload "message") now)
          (log (LogChat sender (prop payload "message")) s)
      else s
  | None => log (ErrInvalid SyntaxError) s
  end.

(** [ws.on('close', ...)] *)
Definition chat_on_close (ws : nat) (s : Server) : Server :=
  let user := mjoin (Map_get ws (clients s)) in
  let s' := set_clients (Map_delete ws) s in
  match user with
  | Some name =>
      if String.eqb name "" then s' else broadcastUsers (log (LogLeave name) s')
  | None => s'
  end.

(** [ws.on('error', ...)] *)
Definition chat_on_error (err : string) (s : Server) : Server :=
  log (ErrSocket err) s.

(** [wss.on('connection', ...)], after the server has put the open socket
    into [wss.clients]. *)
Definition chat_on_connection (ws : nat) (remoteAddress : string)
    (s : Server) : Server :=
  send ws (stringify (SystemMessage "🎉 Connected to WebSocket Chat Server"))
    (log (LogClient remoteAddress) s).

End Listeners.

(** What the listeners read and write besides the console. *)
Definition visible (s : Server)
    : list nat * list (nat * option string) * list (nat * string) :=
  (sockets s, clients s, sent s).

(** A codec that writes the data out as text, to run the listeners on. *)
Definition show_name (n : option string) : string := default "null" n.

Definition show : DataCodec :=
  {| stringify d :=
       match d with
       | Users users => "users:" +:+ String.concat "," (show_name <$> users)
       | ChatMessage name message time =>
           "message:" +:+ name +:+ ":" +:+ show_name message +:+ "@" +:+ time
       | SystemMessage message => "system:" +:+ message
       end |}.

(** Sockets 1, 2 and 3 connected, 1 and 2 open and joined as ann and bob,
    3 connecting still. *)
Definition room : Server :=
  mkServer [1; 2; 3] [(1, Some "ann"); (2, Some "bob")]
           (λ ws, if decide (ws = 3) then CONNECTING else OPEN) [] [].

(** The same once socket 1 has closed: the server has taken it out of
    [wss.clients]. *)
Definition room_after_close : Server :=
  mkServer [2; 3] [(1, Some "ann"); (2, Some "bob")]
           (λ ws, if decide (ws = 1) then CLOSED
                  else if decide (ws = 3) then CONNECTING else OPEN) [] [].

Definition join_text (name : string) : string :=
  FlatJson.stringify [("type", Some "join"); ("name", Some name)].

Definition message_text (message : string) : string :=
  FlatJson.stringify [("type", Some "message"); ("message", Some message)].

End Chat.

(** * Properties *)

(** ** The monad computes *)

Lemma bind_Ok {A B} (m : M A) (f : A → M B) w a w' :
  m w = Ok a w' → (m ≫= f) w = f a w'.
Proof. unfold mbind, M_bind. by intros ->. Qed.

Lemma bind_Throw {A B} (m : M A) (f : A → M B) w e w' :
  m w = Throw e w' → (m ≫= f) w = Throw e w'.
Proof. unfold mbind, M_bind. by intros ->. Qed.

Lemma bind_Pending {A B} (m : M A) (f : A → M B) w w' :
  m w = Pending w' → (m ≫= f) w = Pending w'.
Proof. unfold mbind, M_bind. by intros ->. Qed.

Lemma world_backend_ran `{JsonCodec} {A} s (r : Result A) :
  world (backend_ran s r) = final r.
Proof. by destruct r. Qed.

Lemma world_worker_ran `{JsonCodec} {A} s (r : Result A) :
  world (worker_ran s r) = final r.
Proof. by destruct r. Qed.

(** ** The connection registry *)

Section Registry.

(** Folding the close handler's callback over [m] removes from [acc] the
    keys that [m] maps to [ws] and changes nothing else. *)
Lemma purge_fold_lookup (ws : nat) (acc m : gmap (option string) nat) k :
  map_fold (λ userId client a,
              if decide (client = ws) then delete userId a else a) acc m !! k =
  match m !! k with
  | Some c => if decide (c = ws) then None else acc !! k
  | None => acc !! k
  end.
Proof.
  revert k.
  apply (map_fold_weak_ind (λ r m', ∀ k,
    r !! k = match m' !! k with
             | Some c => if decide (c = ws) then None else acc !! k
             | None => acc !! k
             end)).
  - intros k. by rewrite lookup_empty.
  - intros i x m' r Hi IH k.
    destruct (decide (k = i)) as [->|Hne].
    + rewrite lookup_insert_eq. case_decide.
      * apply lookup_delete_eq.
      * rewrite IH, Hi. done.
    + rewrite lookup_insert_ne by done. case_decide.
      * rewrite lookup_delete_ne by done. apply IH.
      * apply IH.
Qed.

Lemma ws_on_close_lookup (ws : nat) w k :
  wsClients (final (ws_on_close ws w)) !! k =
  match wsClients w !! k with
  | Some c => if decide (c = ws) then None else Some c
  | None => None
  end.
Proof.
  unfold ws_on_close, modify, Map_forEach. simpl.
  rewrite (purge_fold_lookup ws (wsClients w) (wsClients w) k).
  destruct (wsClients w !! k) eqn:E; done.
Qed.

End Registry.

(** ** What the handlers keep *)

Section Preservation.
Context `{JsonCodec}.
Variable P : World → Prop.

Lemma preserves_ret {A} (a : A) : preserves P (mret a).
Proof. by intros w HP. Qed.

Lemma preserves_bind {A B} (m : M A) (k : A → M B) :
  preserves P m → (∀ a, preserves P (k a)) → preserves P (m ≫= k).
Proof.
  intros Hm Hk w HP. specialize (Hm w HP).
  unfold mbind, M_bind. destruct (m w); simpl in *; auto.
  by apply Hk.
Qed.

Lemma preserves_try_catch {A} (m : M A) (h : exn → M A) :
  preserves P m → (∀ e, preserves P (h e)) → preserves P (try_catch m h).
Proof.
  intros Hm Hh w HP. specialize (Hm w HP).
  unfold try_catch. destruct (m w); simpl in *; auto.
  by apply Hh.
Qed.

Lemma preserves_gets {A} (f : World → A) : preserves P (gets f).
Proof. by intros w HP. Qed.

Lemma preserves_parse text : preserves P (parse text).
Proof. intros w HP. unfold parse. by destruct (JSON_parse text). Qed.

Lemma preserves_modify (f : World → World) :
  (∀ w, P w → P (f w)) → preserves P (modify f).
Proof. intros Hf w HP. by apply Hf. Qed.

(** [P] does not read the console or the outbox, and the two Redis
    commands keep it. *)
Hypothesis P_console : ∀ f w, P w → P (set_console f w).
Hypothesis P_outbox : ∀ f w, P w → P (set_outbox f w).
Hypothesis P_rPush : ∀ key element, preserves P (rPush key element).
Hypothesis P_blPop : ∀ key, preserves P (blPop key).

Lemma preserves_console_log l : preserves P (console_log l).
Proof. apply preserves_modify. intros. by apply P_console. Qed.

Lemma preserves_ws_send ws data : preserves P (ws_send ws data).
Proof. apply preserves_modify. intros. by apply P_outbox. Qed.

Ltac keep :=
  repeat first
    [ apply preserves_bind | apply preserves_try_catch
    | apply preserves_ret | apply preserves_gets | apply preserves_parse
    | apply preserves_console_log | apply preserves_ws_send
    | apply P_rPush | apply P_blPop
    | match goal with |- ∀ _, _ => intro end
    | match goal with |- preserves _ (if ?b then _ else _) => destruct b end
    | match goal with |- preserves _ (match ?x with _ => _ end) => destruct x end ].

Lemma preserves_wss_on_connection ws : preserves P (wss_on_connection ws).
Proof. unfold wss_on_connection. keep. Qed.

Lemma preserves_submit body : preserves P (submit body).
Proof. unfold submit. keep. Qed.

Lemma preserves_listenForResults n : preserves P (listenForResults n).
Proof. induction n as [|n IH]; simpl; keep. exact IH. Qed.

Lemma preserves_main n : preserves P (main n).
Proof. induction n as [|n IH]; simpl; keep. exact IH. Qed.

(** When [P] does not read the registry either, the two socket listeners
    keep it too. *)
Hypothesis P_wsClients : ∀ f w, P w → P (set_wsClients f w).

Lemma preserves_ws_on_message ws data : preserves P (ws_on_message ws data).
Proof.
  unfold ws_on_message. keep.
  apply preserves_modify. intros. by apply P_wsClients.
Qed.

Lemma preserves_ws_on_close ws : preserves P (ws_on_close ws).
Proof. apply preserves_modify. intros. by apply P_wsClients. Qed.

End Preservation.

(** ** The Redis lists are queues *)

Section Fifo.
Context `{JsonCodec}.
Variable key : string.
Variable q0 : list string.

Lemma fifo_inv_frame w w' :
  monitor w' = monitor w → lists w' = lists w →
  fifo_inv key q0 w → fifo_inv key q0 w'.
Proof.
  unfold fifo_inv, pushed, popped, lrange. by intros -> ->.
Qed.

Lemma fifo_rPush k element : preserves (fifo_inv key q0) (rPush k element).
Proof.
  intros w Hw. unfold rPush. destruct (available w); [|done].
  revert Hw. unfold fifo_inv, pushed, popped, lrange. simpl.
  rewrite !omap_app. simpl. intros Hw.
  destruct (decide (k = key)) as [->|Hne].
  - rewrite lookup_insert_eq. simpl.
    rewrite !app_nil_r, !app_assoc. by rewrite Hw.
  - rewrite lookup_insert_ne by done. by rewrite !app_nil_r.
Qed.

Lemma fifo_blPop k : preserves (fifo_inv key q0) (blPop k).
Proof.
  intros w Hw. unfold blPop. destruct (available w); [|done].
  destruct (lrange k w) as [|element rest] eqn:Hk; [done|].
  revert Hw. unfold fifo_inv, pushed, popped. simpl.
  rewrite !omap_app. simpl. intros Hw.
  destruct (decide (k = key)) as [->|Hne].
  - unfold lrange at 1. simpl. rewrite lookup_insert_eq. simpl.
    rewrite app_nil_r, Hw, Hk, <-app_assoc. done.
  - unfold lrange in *. simpl. rewrite lookup_insert_ne by done.
    by rewrite !app_nil_r.
Qed.

Lemma fifo_step s ev :
  fifo_inv key q0 (world s) → fifo_inv key q0 (world (step s ev)).
Proof.
  intros Hs.
  assert (Hc : ∀ f w, fifo_inv key q0 w → fifo_inv key q0 (set_console f w))
    by (intros f w; by apply fifo_inv_frame).
  assert (Ho : ∀ f w, fifo_inv key q0 w → fifo_inv key q0 (set_outbox f w))
    by (intros f w; by apply fifo_inv_frame).
  assert (Hm : ∀ f w, fifo_inv key q0 w → fifo_inv key q0 (set_wsClients f w))
    by (intros f w; by apply fifo_inv_frame).
  assert (Hr : ∀ ws st, fifo_inv key q0 (set_readyState ws st (world s)))
    by (intros ws st; by apply (fifo_inv_frame (world s))).
  destruct ev as [ws|ws data|ws|body| | |ws st|up]; unfold step.
  - destruct (backend_alive s); [|done]. rewrite world_backend_ran.
    by apply (preserves_wss_on_connection _ Hc).
  - destruct (backend_alive s); [|done]. rewrite world_backend_ran.
    by apply (preserves_ws_on_message _ Hc Hm).
  - destruct (backend_alive s); [|apply Hr]. rewrite world_backend_ran.
    by apply (preserves_ws_on_close _ Hm).
  - destruct (backend_alive s); [|done]. rewrite world_backend_ran.
    by apply (preserves_submit _ Hc fifo_rPush).
  - destruct (backend_alive s); [|done]. rewrite world_backend_ran.
    by apply (preserves_listenForResults _ Hc Ho fifo_blPop).
  - destruct (worker_alive s); [|done]. rewrite world_worker_ran.
    by apply (preserves_main _ Hc fifo_rPush fifo_blPop).
  - apply Hr.
  - by apply (fifo_inv_frame (world s)).
Qed.

Lemma fifo_run evs : ∀ s,
  fifo_inv key q0 (world s) → fifo_inv key q0 (world (run s evs)).
Proof.
  induction evs as [|ev evs IH]; intros s Hs; [done|].
  simpl. apply IH. by apply fifo_step.
Qed.

End Fifo.

(** ** One activation of the result loop *)

Section Router.
Context `{JsonCodec}.

(** The state after [blPop] has returned [element] from [key]. *)
Lemma blPop_head key w element rest :
  available w = true → lrange key w = element :: rest →
  blPop key w =
    Ok element (set_monitor (λ c, c ++ [BLPOP key element])
                  (set_lists (λ l, <[key := rest]> l) w)).
Proof. intros Ha Hq. unfold blPop. by rewrite Ha, Hq. Qed.

Lemma parse_Some text o w : JSON_parse text = Some o → parse text w = Ok o w.
Proof. intros Hp. unfold parse. by rewrite Hp. Qed.

Lemma parse_None text w :
  JSON_parse text = None → parse text w = Throw SyntaxError w.
Proof. intros Hp. unfold parse. by rewrite Hp. Qed.

Lemma lrange_set_lists key rest w :
  lrange key (set_lists (λ l, <[key := rest]> l) w) = rest.
Proof. unfold lrange. simpl. by rewrite lookup_insert_eq. Qed.

Lemma listenForResults_send w element rest result ws n :
  available w = true →
  lrange "results" w = element :: rest →
  JSON_parse element = Some result →
  wsClients w !! prop result "userId" = Some ws →
  readyState w ws = OPEN →
  listenForResults (S n) w =
  listenForResults n
    (set_console (λ c, c ++ [LogResultSent (prop result "username")])
       (set_outbox (λ o, o ++ [(ws, JSON_stringify result)])
          (set_monitor (λ c, c ++ [BLPOP "results" element])
             (set_lists (λ l, <["results" := rest]> l) w)))).
Proof.
  intros Ha Hq Hp Hws Hst. simpl.
  erewrite bind_Ok by (by apply blPop_head).
  erewrite bind_Ok by (by apply parse_Some).
  unfold gets at 1. unfold mbind at 1, M_bind at 1. simpl. rewrite Hws.
  unfold gets, mbind, M_bind. simpl. rewrite Hst. simpl. done.
Qed.

Lemma listenForResults_drop w element rest result n :
  available w = true →
  lrange "results" w = element :: rest →
  JSON_parse element = Some result →
  (wsClients w !! prop result "userId" = None
   ∨ ∃ ws, wsClients w !! prop result "userId" = Some ws
           ∧ readyState w ws ≠ OPEN) →
  listenForResults (S n) w =
  listenForResults n
    (set_monitor (λ c, c ++ [BLPOP "results" element])
       (set_lists (λ l, <["results" := rest]> l) w)).
Proof.
  intros Ha Hq Hp Hws. simpl.
  erewrite bind_Ok by (by apply blPop_head).
  erewrite bind_Ok by (by apply parse_Some).
  unfold gets at 1. unfold mbind at 1, M_bind at 1. simpl.
  destruct Hws as [Hws|(ws & Hws & Hst)]; rewrite Hws.
  - done.
  - unfold gets, mbind, M_bind. simpl. by case_decide.
Qed.

(** A message that is not JSON leaves the message listener as an
    exception, with the state as it was. *)
Lemma ws_on_message_malformed ws data w :
  JSON_parse data = None → ws_on_message ws data w = Throw SyntaxError w.
Proof.
  intros Hp. unfold ws_on_message. apply bind_Throw. by apply parse_None.
Qed.

End Router.

(** ** One iteration of the worker loop *)

Section Worker.
Context `{JsonCodec}.

Lemma main_job w element rest payload n :
  available w = true →
  lrange "problems" w = element :: rest →
  JSON_parse element = Some payload →
  main (S n) w =
  main n
    (set_console (λ c, c ++ [LogWorkerDone (prop payload "username")])
       (set_monitor (λ c, c ++ [RPUSH "results" (JSON_stringify (result_of payload))])
          (set_lists (λ l, <["results" := default [] (l !! "results")
                                            ++ [JSON_stringify (result_of payload)]]> l)
             (set_console (λ c, c ++ [LogWorkerJob (prop payload "username")
                                                   (prop payload "problemTd")])
                (set_monitor (λ c, c ++ [BLPOP "problems" element])
                   (set_lists (λ l, <["problems" := rest]> l) w)))))).
Proof.
  intros Ha Hq Hp. simpl.
  erewrite bind_Ok by (by apply blPop_head).
  erewrite bind_Ok by (by apply parse_Some).
  unfold console_log, modify, rPush, mbind, M_bind. simpl. by rewrite Ha.
Qed.

(** A dequeued element that is not JSON ends the loop: the rejection of
    [main] is handled nowhere. *)
Lemma main_malformed w element rest n :
  available w = true →
  lrange "problems" w = element :: rest →
  JSON_parse element = None →
  main (S n) w =
  Throw SyntaxError
    (set_monitor (λ c, c ++ [BLPOP "problems" element])
       (set_lists (λ l, <["problems" := rest]> l) w)).
Proof.
  intros Ha Hq Hp. simpl.
  erewrite bind_Ok by (by apply blPop_head).
  erewrite bind_Throw by (by apply parse_None). done.
Qed.

End Worker.

(** ** The submission route *)

Section Submit.
Context `{JsonCodec}.

Lemma submit_missing body w :
  required_fields body = false →
  submit body w =
  Ok (mkResponse 400 "Missing fields")
     (set_console (λ c, c ++ [LogSubmitHit body]) w).
Proof.
  unfold required_fields. intros Hr.
  unfold submit, try_catch, console_log, modify, mbind, M_bind. simpl.
  destruct (truthy (prop body "userId")), (truthy (prop body "username")),
    (truthy (prop body "problemTd")); simpl in *; done.
Qed.

Lemma submit_queued body w :
  required_fields body = true → available w = true →
  submit body w =
  Ok (mkResponse 200 "✅ Submitted")
     (set_console (λ c, c ++ [LogQueue (prop body "username") (prop body "userId")
                                       (prop body "problemTd")])
        (set_monitor (λ c, c ++ [RPUSH "problems" (JSON_stringify body)])
           (set_lists (λ l, <["problems" := default [] (l !! "problems")
                                             ++ [JSON_stringify body]]> l)
              (set_console (λ c, c ++ [LogSubmitHit body]) w)))).
Proof.
  unfold required_fields. intros Hr Ha.
  unfold submit, try_catch, console_log, modify, rPush, mbind, M_bind. simpl.
  destruct (truthy (prop body "userId")), (truthy (prop body "username")),
    (truthy (prop body "problemTd")); simpl in *; try done.
  by rewrite Ha.
Qed.

Lemma submit_broker_down body w :
  required_fields body = true → available w = false →
  submit body w =
  Ok (mkResponse 500 "Server error")
     (set_console (λ c, c ++ [ErrSubmit RedisError])
        (set_console (λ c, c ++ [LogSubmitHit body]) w)).
Proof.
  unfold required_fields. intros Hr Ha.
  unfold submit, try_catch, console_log, modify, rPush, mbind, M_bind. simpl.
  destruct (truthy (prop body "userId")), (truthy (prop body "username")),
    (truthy (prop body "problemTd")); simpl in *; try done.
  by rewrite Ha.
Qed.

(** A field that is absent fails the guard. *)
Lemma required_fields_absent body :
  prop body "userId" = None ∨ prop body "username" = None
  ∨ prop body "problemTd" = None →
  required_fields body = false.
Proof.
  unfold required_fields. intros [Hn|[Hn|Hn]]; rewrite Hn; simpl.
  - done.
  - by rewrite andb_false_r.
  - by rewrite andb_false_r.
Qed.

End Submit.

(** * The claims *)

(** C1. A result whose user id is registered on an open socket is sent,
    serialized, to that socket and to no other: one activation of
    [listenForResults] takes the result off the list and adds exactly one
    call of [send], on the socket [wsClients] holds for the result's user
    id. *)
Theorem router_sends_to_registered_socket `{JsonCodec}
    (w : World) (element : string) (rest : list string) (result : jsobj)
    (ws : WebSocket) :
  available w = true →
  lrange "results" w = element :: rest →
  JSON_parse element = Some result →
  wsClients w !! prop result "userId" = Some ws →
  readyState w ws = OPEN →
  let w' := final (listenForResults 1 w) in
  listenForResults 1 w = Ok tt w'
  ∧ outbox w' = outbox w ++ [(ws, JSON_stringify result)]
  ∧ lrange "results" w' = rest
  ∧ wsClients w' = wsClients w.
Proof.
  intros Ha Hq Hp Hws Hst w'. subst w'.
  rewrite (listenForResults_send w element rest result ws 0) by done.
  simpl. repeat split. apply lrange_set_lists.
Qed.

Lemma router_sends_to_registered_socket_witness :
  let w := world Scenario.routed in
  let w' := final (@listenForResults FlatJson.codec 1 w) in
  @listenForResults FlatJson.codec 1 w = Ok tt w'
  ∧ outbox w' = outbox w ++ [(1, Scenario.result_text Scenario.alice_job)]
  ∧ lrange "results" w' = []
  ∧ wsClients w' = wsClients w.
Proof.
  apply (@router_sends_to_registered_socket FlatJson.codec
           (world Scenario.routed) (Scenario.result_text Scenario.alice_job) []
           (result_of Scenario.alice_job) 1);
    vm_compute; reflexivity.
Defined.

(** C4. A result whose user id has no entry in [wsClients], or whose socket
    is not open, is dropped: the activation returns normally, nothing is
    sent, logged, pushed back or stored, the registry is untouched, and the
    loop goes on with the rest of the list. *)
Theorem router_drops_undeliverable_result `{JsonCodec}
    (w : World) (element : string) (rest : list string) (result : jsobj)
    (n : nat) :
  available w = true →
  lrange "results" w = element :: rest →
  JSON_parse element = Some result →
  (wsClients w !! prop result "userId" = None
   ∨ ∃ ws, wsClients w !! prop result "userId" = Some ws
           ∧ readyState w ws ≠ OPEN) →
  let w' := final (listenForResults 1 w) in
  listenForResults 1 w = Ok tt w'
  ∧ listenForResults (S n) w = listenForResults n w'
  ∧ outbox w' = outbox w
  ∧ console w' = console w
  ∧ wsClients w' = wsClients w
  ∧ lists w' = <["results" := rest]> (lists w)
  ∧ monitor w' = monitor w ++ [BLPOP "results" element].
Proof.
  intros Ha Hq Hp Hws w'. subst w'.
  rewrite (listenForResults_drop w element rest result n) by done.
  rewrite (listenForResults_drop w element rest result 0) by done.
  simpl. done.
Qed.

Lemma router_drops_undeliverable_result_witness :
  let w := world Scenario.closing in
  let w' := final (@listenForResults FlatJson.codec 1 w) in
  @listenForResults FlatJson.codec 1 w = Ok tt w'
  ∧ @listenForResults FlatJson.codec 3 w = @listenForResults FlatJson.codec 2 w'
  ∧ outbox w' = outbox w
  ∧ console w' = console w
  ∧ wsClients w' = wsClients w
  ∧ lists w' = <["results" := []]> (lists w)
  ∧ monitor w' = monitor w
                 ++ [BLPOP "results" (Scenario.result_text Scenario.alice_job)].
Proof.
  apply (@router_drops_undeliverable_result FlatJson.codec
           (world Scenario.closing) (Scenario.result_text Scenario.alice_job) []
           (result_of Scenario.alice_job) 2).
  - vm_compute; reflexivity.
  - vm_compute; reflexivity.
  - vm_compute; reflexivity.
  - right. exists 1. split; [vm_compute; reflexivity|]. vm_compute. discriminate.
Defined.

(** ** The registry under the event loop *)

Section Persistence.
Context `{JsonCodec}.
Variable u : option string.
Variable ws : WebSocket.

Lemma registered_rPush key element : preserves (registered u ws) (rPush key element).
Proof. intros w Hw. unfold rPush. by destruct (available w). Qed.

Lemma registered_blPop key : preserves (registered u ws) (blPop key).
Proof.
  intros w Hw. unfold blPop. destruct (available w); [|done].
  by destruct (lrange key w).
Qed.

Lemma registered_ws_on_message ws' data :
  supersedes u ws (Message ws' data) = false →
  preserves (registered u ws) (ws_on_message ws' data).
Proof.
  unfold supersedes, ws_on_message, parse. intros Hs w Hw.
  unfold mbind, M_bind. destruct (JSON_parse data) as [msg|]; [|done].
  case_decide as Ht; [|done]. simpl.
  apply bool_decide_eq_false in Hs. unfold registered in *. simpl.
  destruct (decide (prop msg "userId" = u)) as [Hu|Hu].
  - rewrite Hu, lookup_insert_eq. f_equal.
    destruct (decide (ws' = ws)); [done|]. destruct Hs. done.
  - by rewrite lookup_insert_ne.
Qed.

Lemma registered_ws_on_close ws' :
  supersedes u ws (Close ws') = false → preserves (registered u ws) (ws_on_close ws').
Proof.
  unfold supersedes. intros Hs%bool_decide_eq_false w Hw.
  unfold registered in *.
  rewrite ws_on_close_lookup, Hw. case_decide; [|done]. by subst.
Qed.

Lemma registry_entry_step s ev :
  registered u ws (world s) → supersedes u ws ev = false → registered u ws (world (step s ev)).
Proof.
  intros Hw Hs.
  assert (Hc : ∀ f w, registered u ws w → registered u ws (set_console f w)) by done.
  assert (Ho : ∀ f w, registered u ws w → registered u ws (set_outbox f w)) by done.
  destruct ev as [ws'|ws' data|ws'|body| | |ws' st|up]; unfold step.
  - destruct (backend_alive s); [|done]. rewrite world_backend_ran.
    by apply (preserves_wss_on_connection _ Hc).
  - destruct (backend_alive s); [|done]. rewrite world_backend_ran.
    by apply registered_ws_on_message.
  - destruct (backend_alive s); [|done]. rewrite world_backend_ran.
    by apply registered_ws_on_close.
  - destruct (backend_alive s); [|done]. rewrite world_backend_ran.
    by apply (preserves_submit _ Hc registered_rPush).
  - destruct (backend_alive s); [|done]. rewrite world_backend_ran.
    by apply (preserves_listenForResults _ Hc Ho registered_blPop).
  - destruct (worker_alive s); [|done]. rewrite world_worker_ran.
    by apply (preserves_main _ Hc registered_rPush registered_blPop).
  - done.
  - done.
Qed.

(** The entry of [u] stays on [ws] until a registration or the close of
    [ws] takes it away. *)
Lemma registry_entry_persists evs : ∀ s,
  wsClients (world s) !! u = Some ws →
  Forall (λ ev, supersedes u ws ev = false) evs →
  wsClients (world (run s evs)) !! u = Some ws.
Proof.
  induction evs as [|ev evs IH]; intros s Hw Hevs; [done|].
  inversion_clear Hevs. simpl. apply IH; [|done].
  by apply registry_entry_step.
Qed.

End Persistence.

(** C3. The close listener removes an entry only when its value is the
    closing socket: when a newer socket has taken over the identity, the
    close of the old socket leaves the newer entry in place and the lookup
    of the identity still succeeds. *)
Theorem close_keeps_newer_entry
    (w : World) (u : option string) (ws_old ws_new : WebSocket) :
  wsClients w !! u = Some ws_new →
  ws_new ≠ ws_old →
  let w' := final (ws_on_close ws_old w) in
  ws_on_close ws_old w = Ok tt w'
  ∧ wsClients w' !! u = Some ws_new
  ∧ (∀ k c, wsClients w !! k = Some c → c ≠ ws_old → wsClients w' !! k = Some c)
  ∧ (∀ k c, wsClients w !! k = Some c → wsClients w' !! k = None → c = ws_old).
Proof.
  intros Hu Hne w'. subst w'. split; [done|]. split; [|split].
  - rewrite ws_on_close_lookup, Hu. by case_decide.
  - intros k c Hk Hc. rewrite ws_on_close_lookup, Hk. by case_decide.
  - intros k c Hk. rewrite ws_on_close_lookup, Hk. by case_decide.
Qed.

Lemma close_keeps_newer_entry_witness :
  let w := world Scenario.reconnected in
  let w' := final (ws_on_close 1 w) in
  ws_on_close 1 w = Ok tt w'
  ∧ wsClients w' !! Some "u1" = Some 3
  ∧ (∀ k c, wsClients w !! k = Some c → c ≠ 1 → wsClients w' !! k = Some c)
  ∧ (∀ k c, wsClients w !! k = Some c → wsClients w' !! k = None → c = 1).
Proof.
  apply (close_keeps_newer_entry (world Scenario.reconnected) (Some "u1") 1 3).
  - vm_compute; reflexivity.
  - lia.
Defined.

(** C10. After the close listener has run for a socket, no identity maps
    to it: every entry whose value is that socket is gone, under however
    many identities it was registered, and every entry of another socket
    is kept. *)
Theorem close_purges_every_entry_of_socket (w : World) (ws : WebSocket) :
  let w' := final (ws_on_close ws w) in
  ws_on_close ws w = Ok tt w'
  ∧ (∀ k, wsClients w' !! k ≠ Some ws)
  ∧ wsClients w' = filter (λ kv, kv.2 ≠ ws) (wsClients w)
  ∧ (∀ k c, c ≠ ws → wsClients w' !! k = Some c ↔ wsClients w !! k = Some c).
Proof.
  intros w'. subst w'. split; [done|]. split; [|split].
  - intros k. rewrite ws_on_close_lookup.
    destruct (wsClients w !! k); [|done]. case_decide; congruence.
  - apply map_eq. intros k. rewrite ws_on_close_lookup, map_lookup_filter.
    destruct (wsClients w !! k) as [c|]; simpl; [|done].
    case_decide; case_guard; simpl in *; done.
  - intros k c Hc. rewrite ws_on_close_lookup.
    destruct (wsClients w !! k) as [c'|]; [|done].
    case_decide; split; intros; simplify_eq; done.
Qed.

Lemma close_purges_every_entry_of_socket_witness :
  let w := world Scenario.reconnected in
  let w' := final (ws_on_close 1 w) in
  wsClients w !! Some "u1b" = Some 1
  ∧ wsClients w' !! Some "u1b" = None
  ∧ wsClients w' !! Some "u2" = Some 2
  ∧ ∀ k, wsClients w' !! k ≠ Some 1.
Proof.
  destruct (close_purges_every_entry_of_socket (world Scenario.reconnected) 1)
    as (_ & Hgone & _ & Hkept).
  split; [vm_compute; reflexivity|].
  split; [vm_compute; reflexivity|].
  split; [|exact Hgone].
  apply (Hkept (Some "u2") 2); [lia|]. vm_compute; reflexivity.
Defined.

(** C2. A registration is an upsert and the last writer wins: it puts the
    identity on the registering socket whatever the identity was on
    before, the identity has that one entry, registering again changes
    nothing, and from then on, until a later registration or the close of
    the new socket takes the entry away, a result routed for the identity
    is sent to the new socket only, whatever state the old socket is in. *)
Theorem register_is_last_writer_wins `{JsonCodec}
    (w : World) (ws : WebSocket) (data : string) (msg : jsobj) :
  JSON_parse data = Some msg →
  prop msg "type" = Some "register" →
  let u := prop msg "userId" in
  let w1 := final (ws_on_message ws data w) in
  ws_on_message ws data w = Ok tt w1
  ∧ wsClients w1 = <[u := ws]> (wsClients w)
  ∧ wsClients w1 !! u = Some ws
  ∧ (∀ ws', (u, ws') ∈ map_to_list (wsClients w1) → ws' = ws)
  ∧ (ws_on_message ws data w1 = Ok tt (final (ws_on_message ws data w1))
     ∧ wsClients (final (ws_on_message ws data w1)) = wsClients w1)
  ∧ ∀ (s : System) (evs : list event) (element : string) (rest : list string)
      (result : jsobj),
      world s = w1 →
      Forall (λ ev, supersedes u ws ev = false) evs →
      let s' := run s evs in
      backend_alive s' = true →
      available (world s') = true →
      lrange "results" (world s') = element :: rest →
      JSON_parse element = Some result →
      prop result "userId" = u →
      outbox (world (step s' RouterTurn)) =
        outbox (world s')
        ++ (if decide (readyState (world s') ws = OPEN)
            then [(ws, JSON_stringify result)] else []).
Proof.
  intros Hp Ht u w1.
  assert (Hreg : ∀ w0, ws_on_message ws data w0 =
            Ok tt (set_console
                     (λ c, c ++ [LogRegistered (prop msg "username") u])
                     (set_wsClients (λ m, <[u := ws]> m) w0))).
  { intros w0. unfold ws_on_message, parse, mbind, M_bind.
    rewrite Hp. by case_decide. }
  assert (Hw1 : wsClients w1 = <[u := ws]> (wsClients w)).
  { subst w1. by rewrite Hreg. }
  assert (Hu : wsClients w1 !! u = Some ws).
  { rewrite Hw1. apply lookup_insert_eq. }
  split; [subst w1; by rewrite Hreg|]. split; [done|]. split; [done|].
  split; [|split].
  - intros ws' Hin%elem_of_map_to_list. congruence.
  - rewrite (Hreg w1). simpl. split; [done|].
    rewrite Hw1. apply insert_insert_eq.
  - intros s evs element rest result Hs Hevs s' Halive Ha Hq Hpr Hru.
    assert (Hu' : wsClients (world s') !! prop result "userId" = Some ws).
    { rewrite Hru. apply registry_entry_persists; [by rewrite Hs|done]. }
    unfold step. rewrite Halive, world_backend_ran.
    case_decide as Hst.
    + rewrite (listenForResults_send _ element rest result ws 0) by done.
      done.
    + rewrite (listenForResults_drop _ element rest result 0); eauto.
      simpl. by rewrite app_nil_r.
Qed.

Lemma register_is_last_writer_wins_witness :
  let s := Scenario.reconnected in
  let s' := @run FlatJson.codec s [Post Scenario.alice_job; WorkerTurn] in
  wsClients (world s) !! Some "u1" = Some 3
  ∧ readyState (world s') 1 = OPEN
  ∧ outbox (world (@step FlatJson.codec s' RouterTurn)) =
      outbox (world s') ++ [(3, Scenario.result_text Scenario.alice_job)].
Proof.
  pose (before := world (@run FlatJson.codec Scenario.s0
          [Connection 1; Message 1 (Scenario.registration "u1" "alice");
           Message 1 (Scenario.registration "u1b" "alice");
           Connection 2; Message 2 (Scenario.registration "u2" "bob");
           Connection 3])).
  destruct (@register_is_last_writer_wins FlatJson.codec before 3
              (Scenario.registration "u1" "alice")
              [("type", Some "register"); ("userId", Some "u1");
               ("username", Some "alice")])
    as (_ & _ & Hentry & _ & _ & Hroute);
    [vm_compute; reflexivity | vm_compute; reflexivity |].
  split; [exact Hentry|]. split; [vm_compute; reflexivity|].
  apply (Hroute Scenario.reconnected [Post Scenario.alice_job; WorkerTurn]
           (Scenario.result_text Scenario.alice_job) []
           (result_of Scenario.alice_job)).
  - vm_compute; reflexivity.
  - repeat constructor.
  - vm_compute; reflexivity.
  - vm_compute; reflexivity.
  - vm_compute; reflexivity.
  - vm_compute; reflexivity.
  - vm_compute; reflexivity.
Defined.

(** C5. The submission route answers every payload: with the user id, the
    user name or the problem id missing it answers 400 and the list of
    jobs is not written; with the three fields accepted and the push
    succeeding it answers 200 after appending the serialized payload, and
    whenever the push has happened the three fields were present and the
    answer is 200; with the push failing it answers 500 and nothing is
    written.  The guard reads an empty string as a missing field. *)
Theorem submit_outcomes `{JsonCodec} (w : World) (body : jsobj) :
  let r := submit body w in
  let w' := final r in
  (∃ response, r = Ok response w')
  ∧ ((prop body "userId" = None ∨ prop body "username" = None
      ∨ prop body "problemTd" = None) →
     r = Ok (mkResponse 400 "Missing fields") w'
     ∧ lists w' = lists w ∧ monitor w' = monitor w)
  ∧ (required_fields body = false →
     r = Ok (mkResponse 400 "Missing fields") w'
     ∧ lists w' = lists w ∧ monitor w' = monitor w)
  ∧ (required_fields body = true → available w = true →
     r = Ok (mkResponse 200 "✅ Submitted") w'
     ∧ lrange "problems" w' = lrange "problems" w ++ [JSON_stringify body]
     ∧ monitor w' = monitor w ++ [RPUSH "problems" (JSON_stringify body)])
  ∧ (required_fields body = true → available w = false →
     r = Ok (mkResponse 500 "Server error") w'
     ∧ lists w' = lists w ∧ monitor w' = monitor w)
  ∧ (monitor w' = monitor w ++ [RPUSH "problems" (JSON_stringify body)] →
     r = Ok (mkResponse 200 "✅ Submitted") w'
     ∧ prop body "userId" ≠ None ∧ prop body "username" ≠ None
     ∧ prop body "problemTd" ≠ None).
Proof.
  intros r w'. subst r w'.
  assert (Hmiss : required_fields body = false →
            submit body w = Ok (mkResponse 400 "Missing fields")
                               (final (submit body w))
            ∧ lists (final (submit body w)) = lists w
            ∧ monitor (final (submit body w)) = monitor w).
  { intros Hr. by rewrite (submit_missing body w Hr). }
  split; [|split; [|split; [|split; [|split]]]].
  - destruct (required_fields body) eqn:Hr; [destruct (available w) eqn:Ha|].
    + rewrite (submit_queued body w Hr Ha). by eexists.
    + rewrite (submit_broker_down body w Hr Ha). by eexists.
    + rewrite (submit_missing body w Hr). by eexists.
  - intros Habs. by apply Hmiss, required_fields_absent.
  - exact Hmiss.
  - intros Hr Ha. rewrite (submit_queued body w Hr Ha). simpl.
    split; [done|]. split; [|done].
    unfold lrange. simpl. by rewrite lookup_insert_eq.
  - intros Hr Ha. by rewrite (submit_broker_down body w Hr Ha).
  - assert (Hsame : ∀ c : RedisCmd, monitor w ≠ monitor w ++ [c]).
    { intros c Heq%(f_equal length). rewrite length_app in Heq.
      simpl in Heq. lia. }
    destruct (required_fields body) eqn:Hr; [destruct (available w) eqn:Ha|].
    + rewrite (submit_queued body w Hr Ha). intros _. split; [done|].
      repeat split; intros Hn;
        rewrite required_fields_absent in Hr by auto; done.
    + rewrite (submit_broker_down body w Hr Ha). simpl. intros Hm.
      by apply Hsame in Hm.
    + rewrite (submit_missing body w Hr). simpl. intros Hm.
      by apply Hsame in Hm.
Qed.

Lemma submit_outcomes_witness :
  let down := set_available false Scenario.w0 in
  @submit FlatJson.codec Scenario.alice_job Scenario.w0 =
    Ok (mkResponse 200 "✅ Submitted")
       (final (@submit FlatJson.codec Scenario.alice_job Scenario.w0))
  ∧ lrange "problems" (final (@submit FlatJson.codec Scenario.alice_job Scenario.w0))
    = [FlatJson.stringify Scenario.alice_job]
  ∧ @submit FlatJson.codec [("userId", Some "u1"); ("problemTd", Some "two_sum")]
      Scenario.w0 =
    Ok (mkResponse 400 "Missing fields")
       (final (@submit FlatJson.codec
                 [("userId", Some "u1"); ("problemTd", Some "two_sum")] Scenario.w0))
  ∧ @submit FlatJson.codec Scenario.alice_job down =
    Ok (mkResponse 500 "Server error")
       (final (@submit FlatJson.codec Scenario.alice_job down)).
Proof.
  intros down.
  destruct (@submit_outcomes FlatJson.codec Scenario.w0 Scenario.alice_job)
    as (_ & _ & _ & Hok & _ & _).
  destruct (Hok eq_refl eq_refl) as (Hr & Hq & _).
  destruct (@submit_outcomes FlatJson.codec Scenario.w0
              [("userId", Some "u1"); ("problemTd", Some "two_sum")])
    as (_ & Hmiss & _).
  destruct (Hmiss (or_intror (or_introl eq_refl))) as (Hm & _).
  destruct (@submit_outcomes FlatJson.codec down Scenario.alice_job)
    as (_ & _ & _ & _ & Hdown & _).
  destruct (Hdown eq_refl eq_refl) as (Hd & _).
  split; [exact Hr|]. split; [exact Hq|]. split; [exact Hm|exact Hd].
Defined.

(** C6. For a job it dequeues the worker enqueues exactly one result
    before its next iteration, and the result carries the job's user id,
    user name and problem id unchanged, with a status that is not empty. *)
Theorem worker_enqueues_one_result `{JsonCodec}
    (w : World) (element : string) (rest : list string) (payload : jsobj)
    (n : nat) :
  available w = true →
  lrange "problems" w = element :: rest →
  JSON_parse element = Some payload →
  let w' := final (main 1 w) in
  let result := result_of payload in
  main 1 w = Ok tt w'
  ∧ main (S n) w = main n w'
  ∧ monitor w' = monitor w ++ [BLPOP "problems" element;
                               RPUSH "results" (JSON_stringify result)]
  ∧ lrange "results" w' = lrange "results" w ++ [JSON_stringify result]
  ∧ lrange "problems" w' = rest
  ∧ prop result "userId" = prop payload "userId"
  ∧ prop result "username" = prop payload "username"
  ∧ prop result "problemTd" = prop payload "problemTd"
  ∧ (∃ st, prop result "status" = Some st ∧ st ≠ "").
Proof.
  intros Ha Hq Hp w' result. subst w' result.
  rewrite (main_job w element rest payload n Ha Hq Hp).
  rewrite (main_job w element rest payload 0 Ha Hq Hp).
  simpl. split; [done|]. split; [done|]. split; [by rewrite <-app_assoc|].
  split; [|split; [|split; [done|split; [done|split; [done|]]]]].
  - unfold lrange. simpl. rewrite lookup_insert_eq. simpl.
    by rewrite lookup_insert_ne.
  - unfold lrange. simpl. rewrite lookup_insert_ne by done.
    by rewrite lookup_insert_eq.
  - by eexists.
Qed.

Lemma worker_enqueues_one_result_witness :
  let w := final (@submit FlatJson.codec Scenario.alice_job Scenario.w0) in
  let w' := final (@main FlatJson.codec 1 w) in
  @main FlatJson.codec 1 w = Ok tt w'
  ∧ lrange "results" w' = [Scenario.result_text Scenario.alice_job]
  ∧ lrange "problems" w' = []
  ∧ prop (result_of Scenario.alice_job) "userId" = Some "u1"
  ∧ prop (result_of Scenario.alice_job) "username" = Some "alice"
  ∧ prop (result_of Scenario.alice_job) "problemTd" = Some "two_sum".
Proof.
  intros w w'.
  destruct (@worker_enqueues_one_result FlatJson.codec w
              (FlatJson.stringify Scenario.alice_job) [] Scenario.alice_job 0)
    as (Hm & _ & _ & Hres & Hjobs & Hu & Hn & Hp & _);
    [vm_compute; reflexivity | vm_compute; reflexivity
    | vm_compute; reflexivity |].
  split; [exact Hm|]. split; [exact Hres|]. split; [exact Hjobs|].
  split; [exact Hu|]. split; [exact Hn|exact Hp].
Defined.

(** C7. The list of jobs is a first-in first-out queue: over every
    interleaving of submissions, worker iterations and other events, the
    jobs the worker has dequeued are, in dequeue order, the first ones of
    the enqueue order, and the list holds the others in that order; so of
    two jobs enqueued in some order the worker never dequeues the later
    one before the earlier one. *)
Theorem job_queue_is_fifo `{JsonCodec} (s : System) (evs : list event) :
  monitor (world s) = [] →
  let w' := world (run s evs) in
  let enqueued := lrange "problems" (world s) ++ pushed "problems" w' in
  let dequeued := popped "problems" w' in
  enqueued = dequeued ++ lrange "problems" w'
  ∧ ∀ i j J1 J2,
      i < j →
      enqueued !! i = Some J1 →
      enqueued !! j = Some J2 →
      j < length dequeued →
      dequeued !! i = Some J1 ∧ dequeued !! j = Some J2.
Proof.
  intros Hm w' enqueued dequeued.
  assert (Hinv : enqueued = dequeued ++ lrange "problems" w').
  { apply (fifo_run "problems" (lrange "problems" (world s)) evs s).
    unfold fifo_inv, pushed, popped. rewrite Hm. simpl.
    by rewrite app_nil_r. }
  split; [done|]. intros i j J1 J2 Hij H1 H2 Hj.
  rewrite Hinv in H1, H2.
  rewrite lookup_app_l in H1 by lia. rewrite lookup_app_l in H2 by lia.
  done.
Qed.

Lemma job_queue_is_fifo_witness :
  let s' := @run FlatJson.codec Scenario.s0
              [Post Scenario.alice_job; WorkerTurn; Post Scenario.bob_job;
               Post Scenario.alice_job; WorkerTurn] in
  pushed "problems" (world s') =
    popped "problems" (world s') ++ lrange "problems" (world s')
  ∧ popped "problems" (world s') =
      [FlatJson.stringify Scenario.alice_job; FlatJson.stringify Scenario.bob_job].
Proof.
  intros s'.
  destruct (@job_queue_is_fifo FlatJson.codec Scenario.s0
              [Post Scenario.alice_job; WorkerTurn; Post Scenario.bob_job;
               Post Scenario.alice_job; WorkerTurn] eq_refl) as (Heq & _).
  split; [exact Heq|]. vm_compute; reflexivity.
Defined.

(** C8, on a job that is not JSON.  The worker does not log the failure and
    does not go on to the next job: [JSON.parse] throws inside the loop,
    nothing catches it, [main] rejects, and the job behind the malformed
    one stays in the list however often the worker is scheduled. *)
Theorem worker_stops_on_malformed_job :
  let w := Scenario.poisoned in
  let w' := final (@main FlatJson.codec 1 w) in
  FlatJson.parse "oops" = None
  ∧ (∀ n, @main FlatJson.codec (S n) w = Throw SyntaxError w')
  ∧ console w' = []
  ∧ lrange "problems" w' = [FlatJson.stringify Scenario.alice_job]
  ∧ lrange "results" w' = []
  ∧ (let s' := @run FlatJson.codec (mkSystem w true true)
                 [WorkerTurn; WorkerTurn; WorkerTurn] in
     worker_alive s' = false
     ∧ lrange "problems" (world s') = [FlatJson.stringify Scenario.alice_job]
     ∧ lrange "results" (world s') = []).
Proof.
  intros w w'. split; [vm_compute; reflexivity|]. split.
  - intros n. subst w'.
    rewrite (@main_malformed FlatJson.codec w "oops"
               [FlatJson.stringify Scenario.alice_job] n);
      [|vm_compute; reflexivity..].
    rewrite (@main_malformed FlatJson.codec w "oops"
               [FlatJson.stringify Scenario.alice_job] 0);
      [|vm_compute; reflexivity..].
    done.
  - repeat split; vm_compute; reflexivity.
Qed.

(** C9, on a message that is not JSON.  The message listener does not
    discard and log it: [JSON.parse] throws, the listener has no handler
    around it, nothing is logged, and the exception leaves the listener
    uncaught, which ends the backend process; a valid registration that
    follows on the same socket is not processed. *)
Theorem message_listener_throws_on_malformed_message :
  let s := Scenario.routed in
  let s' := @run FlatJson.codec s
              [Message 1 "oops"; Message 1 (Scenario.registration "u9" "alice")] in
  FlatJson.parse "oops" = None
  ∧ @ws_on_message FlatJson.codec 1 "oops" (world s) = Throw SyntaxError (world s)
  ∧ backend_alive s = true
  ∧ backend_alive (@step FlatJson.codec s (Message 1 "oops")) = false
  ∧ console (world s') = console (world s)
  ∧ wsClients (world s') !! Some "u9" = None
  ∧ wsClients (world (@step FlatJson.codec s
                        (Message 1 (Scenario.registration "u9" "alice"))))
      !! Some "u9" = Some 1.
Proof.
  intros s s'. split; [vm_compute; reflexivity|]. split.
  - apply (@ws_on_message_malformed FlatJson.codec). vm_compute; reflexivity.
  - repeat split; vm_compute; reflexivity.
Qed.


(** * Further properties of the two loops and the listeners *)

(** ** The result loop over a whole list *)

Section RouterBatch.
Context `{JsonCodec}.

Lemma delivery_ext w1 w2 element :
  wsClients w1 = wsClients w2 → readyState w1 = readyState w2 →
  delivery w1 element = delivery w2 element
  ∧ delivery_line w1 element = delivery_line w2 element.
Proof. unfold delivery, delivery_line. by intros -> ->. Qed.

Lemma flat_map_delivery_ext w1 w2 els :
  wsClients w1 = wsClients w2 → readyState w1 = readyState w2 →
  flat_map (delivery w1) els = flat_map (delivery w2) els
  ∧ flat_map (delivery_line w1) els = flat_map (delivery_line w2) els.
Proof.
  intros Hc Hr. induction els as [|el els [IH1 IH2]]; [done|]. simpl.
  destruct (delivery_ext w1 w2 el Hc Hr) as [-> ->]. by rewrite IH1, IH2.
Qed.

Lemma listenForResults_empty w n :
  available w = true → lrange "results" w = [] →
  listenForResults (S n) w = Pending w.
Proof.
  intros Ha Hq. simpl. apply bind_Pending. unfold blPop. by rewrite Ha, Hq.
Qed.

Lemma listenForResults_malformed w element rest n :
  available w = true →
  lrange "results" w = element :: rest →
  JSON_parse element = None →
  listenForResults (S n) w =
  Throw SyntaxError
    (set_monitor (λ c, c ++ [BLPOP "results" element])
       (set_lists (λ l, <["results" := rest]> l) w)).
Proof.
  intros Ha Hq Hp. simpl.
  erewrite bind_Ok by (by apply blPop_head).
  erewrite bind_Throw by (by apply parse_None). done.
Qed.

(** The activations that take the elements of [good] off the list leave
    the loop where it would start on what follows them. *)
Lemma listenForResults_batch good : ∀ w tail n,
  available w = true →
  lrange "results" w = good ++ tail →
  Forall (λ el, is_Some (JSON_parse el)) good →
  ∃ w',
    listenForResults (length good + n) w = listenForResults n w'
    ∧ available w' = true
    ∧ lrange "results" w' = tail
    ∧ outbox w' = outbox w ++ flat_map (delivery w) good
    ∧ console w' = console w ++ flat_map (delivery_line w) good
    ∧ monitor w' = monitor w ++ (BLPOP "results" <$> good)
    ∧ wsClients w' = wsClients w
    ∧ readyState w' = readyState w
    ∧ (∀ key, key ≠ "results" → lists w' !! key = lists w !! key).
Proof.
  induction good as [|el good IH]; intros w tail n Ha Hq Hgood.
  { exists w. simpl. by rewrite !app_nil_r. }
  inversion_clear Hgood as [|? ? [result Hp] Hgood'].
  assert (Hstep : ∃ w1,
    listenForResults (S (length good + n)) w = listenForResults (length good + n) w1
    ∧ available w1 = true
    ∧ lrange "results" w1 = good ++ tail
    ∧ outbox w1 = outbox w ++ delivery w el
    ∧ console w1 = console w ++ delivery_line w el
    ∧ monitor w1 = monitor w ++ [BLPOP "results" el]
    ∧ wsClients w1 = wsClients w
    ∧ readyState w1 = readyState w
    ∧ (∀ key, key ≠ "results" → lists w1 !! key = lists w !! key)).
  { unfold delivery, delivery_line. rewrite Hp.
    destruct (wsClients w !! prop result "userId") as [ws|] eqn:Hws;
      [destruct (decide (readyState w ws = OPEN)) as [Hst|Hst]|].
    - eexists. split; [by apply (listenForResults_send w el (good ++ tail) result ws)|].
      simpl. repeat split; try done.
      + unfold lrange. simpl. by rewrite lookup_insert_eq.
      + intros key Hk. by rewrite lookup_insert_ne.
    - eexists. split; [apply (listenForResults_drop w el (good ++ tail) result); eauto|].
      simpl. rewrite !app_nil_r. repeat split; try done.
      + unfold lrange. simpl. by rewrite lookup_insert_eq.
      + intros key Hk. by rewrite lookup_insert_ne.
    - eexists. split; [apply (listenForResults_drop w el (good ++ tail) result); eauto|].
      simpl. rewrite !app_nil_r. repeat split; try done.
      + unfold lrange. simpl. by rewrite lookup_insert_eq.
      + intros key Hk. by rewrite lookup_insert_ne. }
  destruct Hstep as (w1 & Hrun & Ha1 & Hq1 & Ho1 & Hc1 & Hm1 & Hcl1 & Hrs1 & Hl1).
  destruct (IH w1 tail n Ha1 Hq1 Hgood')
    as (w' & Hrun' & Ha' & Hq' & Ho' & Hc' & Hm' & Hcl' & Hrs' & Hl').
  destruct (flat_map_delivery_ext w1 w good Hcl1 Hrs1) as [Hd Hdl].
  exists w'. change (length (el :: good) + n) with (S (length good + n)).
  rewrite Hrun, Hrun'. rewrite fmap_cons.
  change (flat_map (delivery w) (el :: good))
    with (delivery w el ++ flat_map (delivery w) good).
  change (flat_map (delivery_line w) (el :: good))
    with (delivery_line w el ++ flat_map (delivery_line w) good).
  rewrite Ho', Ho1, Hc', Hc1, Hm', Hm1, Hd, Hdl, <-!app_assoc.
  repeat split; try done; try congruence.
  intros key Hk. by rewrite Hl', Hl1.
Qed.

End RouterBatch.

Lemma omap_BLPOP (key : string) (els : list string) :
  omap (λ c, match c with
             | BLPOP k e => if decide (k = key) then Some e else None
             | RPUSH _ _ => None
             end) (BLPOP key <$> els) = els.
Proof.
  induction els as [|el els IH]; [done|].
  csimpl. rewrite decide_True by done. by rewrite IH.
Qed.

(** X1. The result loop takes a list of results that all parse in order,
    one activation each, sends each to the socket its user id is
    registered on if that socket is open, and then waits on the empty
    list: the calls of [send] are, in the order of the list, those of the
    deliverable results, and further activations change nothing. *)
Theorem router_drains_results_in_order `{JsonCodec}
    (w : World) (els : list string) (n : nat) :
  available w = true →
  lrange "results" w = els →
  Forall (λ el, is_Some (JSON_parse el)) els →
  let r := listenForResults (length els + S n) w in
  r = Pending (final r)
  ∧ outbox (final r) = outbox w ++ flat_map (delivery w) els
  ∧ console (final r) = console w ++ flat_map (delivery_line w) els
  ∧ popped "results" (final r) = popped "results" w ++ els
  ∧ lrange "results" (final r) = []
  ∧ wsClients (final r) = wsClients w.
Proof.
  intros Ha Hq Hgood r. subst r.
  destruct (listenForResults_batch els w [] (S n) Ha) as
    (w' & Hrun & Ha' & Hq' & Ho' & Hc' & Hm' & Hcl' & _);
    [by rewrite app_nil_r|done|].
  rewrite Hrun, (listenForResults_empty w' n Ha' Hq'). simpl.
  repeat split; try done.
  unfold popped. rewrite Hm', omap_app. f_equal.
  apply omap_BLPOP.
Qed.

Lemma router_drains_results_in_order_witness :
  let w := world Batch.three_results in
  let r := @listenForResults FlatJson.codec 5 w in
  r = Pending (final r)
  ∧ outbox (final r) =
      [(1, Scenario.result_text Scenario.alice_job);
       (1, Scenario.result_text (Scenario.job "u1" "alice" "three_sum"))]
  ∧ lrange "results" (final r) = [].
Proof.
  destruct (@router_drains_results_in_order FlatJson.codec
              (world Batch.three_results)
              [Scenario.result_text Scenario.alice_job;
               Scenario.result_text Scenario.bob_job;
               Scenario.result_text (Scenario.job "u1" "alice" "three_sum")] 1)
    as (Hr & Ho & _ & _ & Hq & _).
  - vm_compute; reflexivity.
  - vm_compute; reflexivity.
  - repeat constructor; vm_compute; eexists; reflexivity.
  - split; [exact Hr|]. split; [|exact Hq].
    etransitivity; [exact Ho|]. vm_compute; reflexivity.
Defined.

(** X2. A result text that is not JSON ends the result loop: the results
    before it are handled in order, the malformed text is taken off the
    list, [listenForResults] rejects with the [SyntaxError], and the
    results behind it stay in the list, never sent, however many
    activations are allowed. *)
Theorem router_stops_at_first_malformed_result `{JsonCodec}
    (w : World) (good : list string) (bad : string) (rest : list string)
    (n : nat) :
  available w = true →
  lrange "results" w = good ++ bad :: rest →
  Forall (λ el, is_Some (JSON_parse el)) good →
  JSON_parse bad = None →
  let r := listenForResults (length good + S n) w in
  r = Throw SyntaxError (final r)
  ∧ outbox (final r) = outbox w ++ flat_map (delivery w) good
  ∧ popped "results" (final r) = popped "results" w ++ good ++ [bad]
  ∧ lrange "results" (final r) = rest
  ∧ wsClients (final r) = wsClients w.
Proof.
  intros Ha Hq Hgood Hbad r. subst r.
  destruct (listenForResults_batch good w (bad :: rest) (S n) Ha Hq Hgood) as
    (w' & Hrun & Ha' & Hq' & Ho' & Hc' & Hm' & Hcl' & _).
  rewrite Hrun, (listenForResults_malformed w' bad rest n Ha' Hq' Hbad). simpl.
  repeat split; try done.
  - unfold popped. simpl. rewrite Hm', !omap_app. simpl.
    by rewrite omap_BLPOP, <-app_assoc.
  - unfold lrange. simpl. by rewrite lookup_insert_eq.
Qed.

Lemma router_stops_at_first_malformed_result_witness :
  let w := Batch.poisoned_results in
  let r := @listenForResults FlatJson.codec 9 w in
  r = Throw SyntaxError (final r)
  ∧ outbox (final r) = [(1, Scenario.result_text Scenario.alice_job)]
  ∧ lrange "results" (final r) =
      [Scenario.result_text (Scenario.job "u1" "alice" "three_sum")].
Proof.
  destruct (@router_stops_at_first_malformed_result FlatJson.codec
              Batch.poisoned_results
              [Scenario.result_text Scenario.alice_job;
               Scenario.result_text Scenario.bob_job]
              "oops"
              [Scenario.result_text (Scenario.job "u1" "alice" "three_sum")] 6)
    as (Hr & Ho & _ & Hq & _).
  - vm_compute; reflexivity.
  - vm_compute; reflexivity.
  - repeat constructor; vm_compute; eexists; reflexivity.
  - vm_compute; reflexivity.
  - split; [exact Hr|]. split; [|exact Hq].
    etransitivity; [exact Ho|]. vm_compute; reflexivity.
Defined.

(** ** The worker loop over a whole list *)

Section WorkerBatch.
Context `{JsonCodec}.

Lemma main_empty w n :
  available w = true → lrange "problems" w = [] → main (S n) w = Pending w.
Proof.
  intros Ha Hq. simpl. apply bind_Pending. unfold blPop. by rewrite Ha, Hq.
Qed.

(** The iterations that take the jobs of [good] off the list leave the
    loop where it would start on what follows them. *)
Lemma main_batch good : ∀ w tail n,
  available w = true →
  lrange "problems" w = good ++ tail →
  Forall (λ el, is_Some (JSON_parse el)) good →
  ∃ w',
    main (length good + n) w = main n w'
    ∧ available w' = true
    ∧ lrange "problems" w' = tail
    ∧ lrange "results" w' = lrange "results" w ++ flat_map outcome good
    ∧ console w' = console w ++ flat_map worker_lines good
    ∧ monitor w' = monitor w ++ flat_map worker_cmds good
    ∧ wsClients w' = wsClients w
    ∧ outbox w' = outbox w
    ∧ readyState w' = readyState w
    ∧ (∀ key, key ≠ "problems" → key ≠ "results" →
         lists w' !! key = lists w !! key).
Proof.
  induction good as [|el good IH]; intros w tail n Ha Hq Hgood.
  { exists w. simpl. by rewrite !app_nil_r. }
  inversion_clear Hgood as [|? ? [payload Hp] Hgood'].
  pose proof (main_job w el (good ++ tail) payload (length good + n) Ha Hq Hp)
    as Hrun.
  match type of Hrun with _ = main _ ?x => set (w1 := x) in * end.
  assert (Hq1 : lrange "problems" w1 = good ++ tail).
  { unfold lrange. subst w1. simpl.
    rewrite lookup_insert_ne by done. by rewrite lookup_insert_eq. }
  assert (Hr1 : lrange "results" w1 =
                lrange "results" w ++ [JSON_stringify (result_of payload)]).
  { unfold lrange. subst w1. simpl. rewrite lookup_insert_eq. simpl.
    by rewrite lookup_insert_ne. }
  destruct (IH w1 tail n Ha Hq1 Hgood')
    as (w' & Hrun' & Ha' & Hq' & Hr' & Hc' & Hm' & Hcl' & Ho' & Hrs' & Hl').
  exists w'. change (length (el :: good) + n) with (S (length good + n)).
  rewrite Hrun, Hrun'.
  change (flat_map outcome (el :: good))
    with (outcome el ++ flat_map outcome good).
  change (flat_map worker_lines (el :: good))
    with (worker_lines el ++ flat_map worker_lines good).
  change (flat_map worker_cmds (el :: good))
    with (worker_cmds el ++ flat_map worker_cmds good).
  unfold worker_cmds at 1. unfold outcome at 1 3, worker_lines at 1.
  rewrite Hp, Hr', Hr1, Hc', Hm'. subst w1. simpl.
  rewrite <-!app_assoc. repeat split; try done.
  intros key Hk1 Hk2. rewrite Hl' by done. simpl.
  by rewrite !lookup_insert_ne.
Qed.

End WorkerBatch.

(** X3. The worker takes a list of jobs that all parse in order, one
    iteration each, pushes one result per job in the same order, logs the
    start and the end of each job in that order, and then waits on the
    empty list; it sends nothing and leaves the registry alone. *)
Theorem worker_drains_jobs_in_order `{JsonCodec}
    (w : World) (els : list string) (n : nat) :
  available w = true →
  lrange "problems" w = els →
  Forall (λ el, is_Some (JSON_parse el)) els →
  let r := main (length els + S n) w in
  r = Pending (final r)
  ∧ lrange "results" (final r) = lrange "results" w ++ flat_map outcome els
  ∧ length (flat_map outcome els) = length els
  ∧ console (final r) = console w ++ flat_map worker_lines els
  ∧ monitor (final r) = monitor w ++ flat_map worker_cmds els
  ∧ lrange "problems" (final r) = []
  ∧ wsClients (final r) = wsClients w
  ∧ outbox (final r) = outbox w.
Proof.
  intros Ha Hq Hgood r. subst r.
  destruct (main_batch els w [] (S n) Ha) as
    (w' & Hrun & Ha' & Hq' & Hr' & Hc' & Hm' & Hcl' & Ho' & _);
    [by rewrite app_nil_r|done|].
  rewrite Hrun, (main_empty w' n Ha' Hq'). simpl.
  repeat split; try done.
  clear -Hgood. induction Hgood as [|el els [payload Hp] _ IH]; [done|].
  simpl. unfold outcome at 1. rewrite Hp. simpl. by rewrite IH.
Qed.

Lemma worker_drains_jobs_in_order_witness :
  let w := Batch.three_jobs in
  let r := @main FlatJson.codec 4 w in
  r = Pending (final r)
  ∧ lrange "results" (final r) =
      [Scenario.result_text Scenario.alice_job;
       Scenario.result_text Scenario.bob_job;
       Scenario.result_text (Scenario.job "u1" "alice" "three_sum")]
  ∧ lrange "problems" (final r) = [].
Proof.
  destruct (@worker_drains_jobs_in_order FlatJson.codec Batch.three_jobs
              [FlatJson.stringify Scenario.alice_job;
               FlatJson.stringify Scenario.bob_job;
               FlatJson.stringify (Scenario.job "u1" "alice" "three_sum")] 0)
    as (Hr & Hres & _ & _ & _ & Hq & _).
  - vm_compute; reflexivity.
  - vm_compute; reflexivity.
  - repeat constructor; vm_compute; eexists; reflexivity.
  - split; [exact Hr|]. split; [|exact Hq].
    etransitivity; [exact Hres|]. vm_compute; reflexivity.
Defined.

(** X4. A job text that is not JSON ends the worker loop: the jobs before
    it get their results in order, the malformed text is taken off the
    list without a log line or a result, [main] rejects with the
    [SyntaxError], and the jobs behind it stay in the list unprocessed,
    however many iterations are allowed. *)
Theorem worker_stops_at_first_malformed_job `{JsonCodec}
    (w : World) (good : list string) (bad : string) (rest : list string)
    (n : nat) :
  available w = true →
  lrange "problems" w = good ++ bad :: rest →
  Forall (λ el, is_Some (JSON_parse el)) good →
  JSON_parse bad = None →
  let r := main (length good + S n) w in
  r = Throw SyntaxError (final r)
  ∧ lrange "results" (final r) = lrange "results" w ++ flat_map outcome good
  ∧ console (final r) = console w ++ flat_map worker_lines good
  ∧ monitor (final r) =
      monitor w ++ flat_map worker_cmds good ++ [BLPOP "problems" bad]
  ∧ lrange "problems" (final r) = rest.
Proof.
  intros Ha Hq Hgood Hbad r. subst r.
  destruct (main_batch good w (bad :: rest) (S n) Ha Hq Hgood) as
    (w' & Hrun & Ha' & Hq' & Hr' & Hc' & Hm' & _).
  rewrite Hrun, (main_malformed w' bad rest n Ha' Hq' Hbad). simpl.
  split; [done|]. split; [|split; [done|split]].
  - rewrite <-Hr'. unfold lrange. simpl. by rewrite lookup_insert_ne.
  - by rewrite Hm', <-app_assoc.
  - unfold lrange. simpl. by rewrite lookup_insert_eq.
Qed.

Lemma worker_stops_at_first_malformed_job_witness :
  let w := Batch.poisoned_jobs in
  let r := @main FlatJson.codec 7 w in
  r = Throw SyntaxError (final r)
  ∧ lrange "results" (final r) = [Scenario.result_text Scenario.alice_job]
  ∧ lrange "problems" (final r) = [FlatJson.stringify Scenario.bob_job].
Proof.
  destruct (@worker_stops_at_first_malformed_job FlatJson.codec
              Batch.poisoned_jobs [FlatJson.stringify Scenario.alice_job]
              "oops" [FlatJson.stringify Scenario.bob_job] 5)
    as (Hr & Hres & _ & _ & Hq).
  - vm_compute; reflexivity.
  - vm_compute; reflexivity.
  - repeat constructor; vm_compute; eexists; reflexivity.
  - vm_compute; reflexivity.
  - split; [exact Hr|]. split; [|exact Hq].
    etransitivity; [exact Hres|]. vm_compute; reflexivity.
Defined.


(** ** What the loops leave alone *)

Section Frame.
Context `{JsonCodec}.
Variable P : World → Prop.
Hypothesis P_console : ∀ f w, P w → P (set_console f w).
Hypothesis P_outbox : ∀ f w, P w → P (set_outbox f w).
Hypothesis P_pop_results : preserves P (blPop "results").
Hypothesis P_pop_problems : preserves P (blPop "problems").
Hypothesis P_push_results : ∀ element, preserves P (rPush "results" element).

Ltac frame :=
  repeat first
    [ apply preserves_bind | apply preserves_ret | apply preserves_gets
    | apply preserves_parse
    | apply (preserves_console_log P P_console)
    | apply (preserves_ws_send P P_outbox)
    | apply P_pop_results | apply P_pop_problems | apply P_push_results
    | match goal with |- ∀ _, _ => intro end
    | match goal with |- preserves _ (if ?b then _ else _) => destruct b end
    | match goal with |- preserves _ (match ?x with _ => _ end) => destruct x end ].

Lemma frame_listenForResults n : preserves P (listenForResults n).
Proof. induction n as [|n IH]; simpl; frame. exact IH. Qed.

Lemma frame_main n : preserves P (main n).
Proof. induction n as [|n IH]; simpl; frame. exact IH. Qed.

End Frame.

Lemma pushed_snoc_BLPOP key k element w f :
  pushed key (set_monitor (λ c, c ++ [BLPOP k element]) (set_lists f w))
  = pushed key w.
Proof. unfold pushed. simpl. rewrite omap_app. simpl. by rewrite app_nil_r. Qed.

Lemma popped_snoc_RPUSH key k element w f :
  popped key (set_monitor (λ c, c ++ [RPUSH k element]) (set_lists f w))
  = popped key w.
Proof. unfold popped. simpl. rewrite omap_app. simpl. by rewrite app_nil_r. Qed.

Lemma popped_snoc_BLPOP key k element w f :
  popped key (set_monitor (λ c, c ++ [BLPOP k element]) (set_lists f w))
  = popped key w ++ (if decide (k = key) then [element] else []).
Proof. unfold popped. simpl. rewrite omap_app. simpl. by case_decide. Qed.

Lemma pushed_snoc_RPUSH key k element w f :
  pushed key (set_monitor (λ c, c ++ [RPUSH k element]) (set_lists f w))
  = pushed key w ++ (if decide (k = key) then [element] else []).
Proof. unfold pushed. simpl. rewrite omap_app. simpl. by case_decide. Qed.

(** X5. Whatever the list of results holds and however the loop ends, the
    result loop never changes the registry, never pushes to a Redis list,
    and pops from no list but the list of results, of which it takes a
    prefix: every other list is as it was. *)
Theorem router_touches_only_the_results_list `{JsonCodec} (n : nat) (w : World) :
  let w' := final (listenForResults n w) in
  wsClients w' = wsClients w
  ∧ (∀ key, pushed key w' = pushed key w)
  ∧ (∀ key, key ≠ "results" →
       lrange key w' = lrange key w ∧ popped key w' = popped key w)
  ∧ (∃ taken, lrange "results" w = taken ++ lrange "results" w'
              ∧ popped "results" w' = popped "results" w ++ taken).
Proof.
  set (P := λ w' : World,
    wsClients w' = wsClients w
    ∧ (∀ key, pushed key w' = pushed key w)
    ∧ (∀ key, key ≠ "results" →
         lrange key w' = lrange key w ∧ popped key w' = popped key w)
    ∧ (∃ taken, lrange "results" w = taken ++ lrange "results" w'
                ∧ popped "results" w' = popped "results" w ++ taken)).
  assert (HP : P w).
  { split; [done|]. split; [done|]. split; [done|]. by exists []; rewrite app_nil_r. }
  apply (frame_listenForResults P); [done|done| |done].
  clear HP. intros w1 HP1.
  unfold blPop. destruct (available w1); [|exact HP1].
  destruct (lrange "results" w1) as [|element rest] eqn:Hq1; [exact HP1|].
  destruct HP1 as (Hc & Hpu & Hoth & taken & Hq & Hpo).
  simpl. split; [done|]. split; [|split].
  - intros key. by rewrite pushed_snoc_BLPOP.
  - intros key Hk. rewrite popped_snoc_BLPOP, decide_False, app_nil_r by done.
    destruct (Hoth key Hk) as [<- ->]. split; [|done].
    unfold lrange. simpl. by rewrite lookup_insert_ne.
  - exists (taken ++ [element]). rewrite popped_snoc_BLPOP, decide_True by done.
    rewrite Hpo, Hq, <-!app_assoc. split; [|done]. f_equal.
    rewrite Hq1. unfold lrange. simpl. by rewrite lookup_insert_eq.
Qed.

(** X6. Whatever the list of jobs holds and however the loop ends, the
    worker never touches the registry or a socket, pushes to no list but
    the list of results, which only grows at its tail, and pops from no
    list but the list of jobs, of which it takes a prefix. *)
Theorem worker_touches_only_its_two_lists `{JsonCodec} (n : nat) (w : World) :
  let w' := final (main n w) in
  wsClients w' = wsClients w
  ∧ outbox w' = outbox w
  ∧ (∀ key, key ≠ "results" → pushed key w' = pushed key w)
  ∧ (∀ key, key ≠ "problems" → popped key w' = popped key w)
  ∧ (∀ key, key ≠ "problems" → key ≠ "results" → lrange key w' = lrange key w)
  ∧ (∃ added, lrange "results" w' = lrange "results" w ++ added
              ∧ pushed "results" w' = pushed "results" w ++ added)
  ∧ (∃ taken, lrange "problems" w = taken ++ lrange "problems" w'
              ∧ popped "problems" w' = popped "problems" w ++ taken).
Proof.
  set (P := λ w' : World,
    wsClients w' = wsClients w
    ∧ outbox w' = outbox w
    ∧ (∀ key, key ≠ "results" → pushed key w' = pushed key w)
    ∧ (∀ key, key ≠ "problems" → popped key w' = popped key w)
    ∧ (∀ key, key ≠ "problems" → key ≠ "results" → lrange key w' = lrange key w)
    ∧ (∃ added, lrange "results" w' = lrange "results" w ++ added
                ∧ pushed "results" w' = pushed "results" w ++ added)
    ∧ (∃ taken, lrange "problems" w = taken ++ lrange "problems" w'
                ∧ popped "problems" w' = popped "problems" w ++ taken)).
  assert (HP : P w).
  { repeat split; try done; exists []; by rewrite !app_nil_r. }
  apply (frame_main P); [done| | |done]; clear HP.
  - intros w1 HP1.
    unfold blPop. destruct (available w1); [|exact HP1].
    destruct (lrange "problems" w1) as [|element rest] eqn:Hq1; [exact HP1|].
    destruct HP1
      as (Hc & Ho & Hpu & Hpo & Hoth & (added & Hr & Hpr) & taken & Hq & Hpq).
    simpl. split; [done|]. split; [done|]. split; [|split; [|split; [|split]]].
    + intros key Hk. rewrite pushed_snoc_BLPOP. by apply Hpu.
    + intros key Hk. rewrite popped_snoc_BLPOP, decide_False, app_nil_r by done.
      by apply Hpo.
    + intros key Hk1 Hk2. rewrite <-(Hoth key Hk1 Hk2).
      unfold lrange. simpl. by rewrite lookup_insert_ne.
    + exists added. rewrite pushed_snoc_BLPOP. split; [|done]. rewrite <-Hr.
      unfold lrange. simpl. by rewrite lookup_insert_ne.
    + exists (taken ++ [element]).
      rewrite popped_snoc_BLPOP, decide_True by done.
      rewrite Hpq, Hq, <-!app_assoc. split; [|done]. f_equal.
      rewrite Hq1. unfold lrange. simpl. by rewrite lookup_insert_eq.
  - intros element w1 HP1.
    unfold rPush. destruct (available w1); [|exact HP1].
    destruct HP1
      as (Hc & Ho & Hpu & Hpo & Hoth & (added & Hr & Hpr) & taken & Hq & Hpq).
    simpl. split; [done|]. split; [done|]. split; [|split; [|split; [|split]]].
    + intros key Hk. rewrite pushed_snoc_RPUSH, decide_False, app_nil_r by done.
      by apply Hpu.
    + intros key Hk. rewrite popped_snoc_RPUSH. by apply Hpo.
    + intros key Hk1 Hk2. rewrite <-(Hoth key Hk1 Hk2).
      unfold lrange. simpl. by rewrite lookup_insert_ne.
    + exists (added ++ [element]).
      rewrite pushed_snoc_RPUSH, decide_True by done.
      rewrite Hpr, <-!app_assoc. split; [|done].
      unfold lrange at 1. simpl. rewrite lookup_insert_eq. simpl.
      fold (lrange "results" w1). by rewrite Hr, <-app_assoc.
    + exists taken. rewrite popped_snoc_RPUSH. split; [|done]. rewrite Hq.
      f_equal. unfold lrange. simpl. by rewrite lookup_insert_ne.
Qed.

(** ** Who is ever sent to *)

Section Known.
Context `{JsonCodec}.

Lemma known_sockets_mono R R' w :
  R ⊆ R' → known_sockets R w → known_sockets R' w.
Proof.
  intros Hsub [Hreg Hout]. split.
  - intros k ws Hk. apply Hsub. by eapply Hreg.
  - intros ws text Hin. apply Hsub. by eapply Hout.
Qed.

(** One activation of the result loop sends, if it sends, to a socket the
    registry holds. *)
Lemma listenForResults_1_sends w :
  wsClients (final (listenForResults 1 w)) = wsClients w
  ∧ ∃ sent, outbox (final (listenForResults 1 w)) = outbox w ++ sent
            ∧ ∀ ws text, (ws, text) ∈ sent → ∃ k, wsClients w !! k = Some ws.
Proof.
  destruct (available w) eqn:Ha.
  - destruct (lrange "results" w) as [|el rest] eqn:Hq.
    + rewrite (listenForResults_empty w 0 Ha Hq). simpl. split; [done|].
      exists []. rewrite app_nil_r. split; [done|]. by intros ws text ?%elem_of_nil.
    + destruct (JSON_parse el) as [result|] eqn:Hp.
      * destruct (wsClients w !! prop result "userId") as [ws|] eqn:Hws;
          [destruct (decide (readyState w ws = OPEN)) as [Hst|Hst]|].
        -- rewrite (listenForResults_send w el rest result ws 0) by done.
           simpl. split; [done|]. eexists. split; [done|].
           intros ws' text Hin%list_elem_of_singleton. simplify_eq. eauto.
        -- rewrite (listenForResults_drop w el rest result 0) by eauto.
           simpl. split; [done|]. exists []. rewrite app_nil_r.
           split; [done|]. by intros ws' text ?%elem_of_nil.
        -- rewrite (listenForResults_drop w el rest result 0) by eauto.
           simpl. split; [done|]. exists []. rewrite app_nil_r.
           split; [done|]. by intros ws' text ?%elem_of_nil.
      * rewrite (listenForResults_malformed w el rest 0 Ha Hq Hp). simpl.
        split; [done|]. exists []. rewrite app_nil_r.
        split; [done|]. by intros ws' text ?%elem_of_nil.
  - assert (Hr : listenForResults 1 w = Throw RedisError w).
    { simpl. apply bind_Throw. unfold blPop. by rewrite Ha. }
    rewrite Hr. simpl. split; [done|]. exists []. rewrite app_nil_r.
    split; [done|]. by intros ws' text ?%elem_of_nil.
Qed.

Lemma known_sockets_step R s ev :
  known_sockets R (world s) →
  known_sockets (R ++ option_list (registers ev)) (world (step s ev)).
Proof.
  intros Hk.
  assert (Hweak : ∀ w o, known_sockets R w → known_sockets (R ++ o) w).
  { intros w o. apply known_sockets_mono. set_solver. }
  assert (Hc : ∀ R' f w, known_sockets R' w → known_sockets R' (set_console f w))
    by done.
  assert (Hpush : ∀ R' key el, preserves (known_sockets R') (rPush key el)).
  { intros R' key el w Hw. unfold rPush. by destruct (available w). }
  assert (Hpop : ∀ R' key, preserves (known_sockets R') (blPop key)).
  { intros R' key w Hw. unfold blPop. destruct (available w); [|done].
    by destruct (lrange key w). }
  destruct ev as [ws|ws data|ws|body| | |ws st|up]; unfold step.
  - apply Hweak. destruct (backend_alive s); [|done]. rewrite world_backend_ran.
    by apply (preserves_wss_on_connection _ (Hc R)).
  - destruct (backend_alive s); [|by apply Hweak]. rewrite world_backend_ran.
    unfold registers, ws_on_message, parse, mbind, M_bind.
    destruct (JSON_parse data) as [msg|]; [|by apply Hweak].
    case_decide; [|by apply Hweak].
    generalize (prop msg "userId") (prop msg "username"). intros u name.
    simpl. destruct Hk as [Hreg Hout]. split; simpl.
    + intros k ws' Hl. destruct (decide (u = k)) as [->|Hne].
      * rewrite lookup_insert_eq in Hl. set_solver.
      * rewrite lookup_insert_ne in Hl by done.
        apply elem_of_app. left. by eapply Hreg.
    + intros ws' text Hin. apply elem_of_app. left. by eapply Hout.
  - apply Hweak. destruct Hk as [Hreg Hout].
    destruct (backend_alive s); [|done]. rewrite world_backend_ran. split.
    + intros k ws' Hl. rewrite ws_on_close_lookup in Hl. simpl in Hl.
      destruct (wsClients (world s) !! k) as [c|] eqn:Hc'; [|done].
      case_decide; [done|]. simplify_eq. by eapply Hreg.
    + done.
  - apply Hweak. destruct (backend_alive s); [|done]. rewrite world_backend_ran.
    by apply (preserves_submit _ (Hc R) (Hpush R)).
  - apply Hweak. destruct (backend_alive s); [|done]. rewrite world_backend_ran.
    destruct (listenForResults_1_sends (world s)) as (Hcl & sent & Ho & Hsent).
    destruct Hk as [Hreg Hout]. split.
    + intros k ws' Hl. rewrite Hcl in Hl. by eapply Hreg.
    + intros ws' text Hin. rewrite Ho in Hin.
      apply elem_of_app in Hin as [Hin|Hin]; [by eapply Hout|].
      destruct (Hsent ws' text Hin) as [k Hl]. by eapply Hreg.
  - apply Hweak. destruct (worker_alive s); [|done]. rewrite world_worker_ran.
    by apply (preserves_main _ (Hc R) (Hpush R) (Hpop R)).
  - by apply Hweak.
  - by apply Hweak.
Qed.

Lemma known_sockets_run evs : ∀ R s,
  known_sockets R (world s) →
  known_sockets (R ++ omap registers evs) (world (run s evs)).
Proof.
  induction evs as [|ev evs IH]; intros R s Hk.
  { simpl. by rewrite app_nil_r. }
  simpl. apply (known_sockets_step R s ev) in Hk. apply IH in Hk.
  rewrite <-app_assoc in Hk. by destruct (registers ev).
Qed.

End Known.

(** X7. A socket is inert until it registers: starting with an empty
    registry and nothing sent, after any sequence of events every call of
    [send] was on a socket that some message of the sequence registered,
    and so is every socket the registry holds. *)
Theorem only_registered_sockets_are_sent_to `{JsonCodec}
    (s : System) (evs : list event) :
  wsClients (world s) = ∅ →
  outbox (world s) = [] →
  let w' := world (run s evs) in
  (∀ ws text, (ws, text) ∈ outbox w' → ws ∈ omap registers evs)
  ∧ (∀ k ws, wsClients w' !! k = Some ws → ws ∈ omap registers evs).
Proof.
  intros Hc Ho w'.
  assert (Hk : known_sockets [] (world s)).
  { split.
    - intros k ws. by rewrite Hc, lookup_empty.
    - intros ws text. rewrite Ho. by intros ?%elem_of_nil. }
  apply (known_sockets_run evs) in Hk. destruct Hk as [Hreg Hout].
  split; [exact Hout|exact Hreg].
Qed.

Lemma only_registered_sockets_are_sent_to_witness :
  let evs := [Connection 1; Message 1 (Scenario.registration "u1" "alice");
              Connection 2; Post Scenario.alice_job; Post Scenario.bob_job;
              WorkerTurn; WorkerTurn; RouterTurn; RouterTurn] in
  let w' := world (@run FlatJson.codec Scenario.s0 evs) in
  outbox w' = [(1, Scenario.result_text Scenario.alice_job)]
  ∧ omap (@registers FlatJson.codec) evs = [1]
  ∧ ∀ ws text, (ws, text) ∈ outbox w' → ws ∈ omap (@registers FlatJson.codec) evs.
Proof.
  intros evs w'.
  split; [vm_compute; reflexivity|]. split; [vm_compute; reflexivity|].
  apply (@only_registered_sockets_are_sent_to FlatJson.codec Scenario.s0 evs);
    reflexivity.
Defined.

(** ** From the submission to the socket *)

(** X8. End to end on an idle system: when both processes run, the broker
    is up, the two lists are empty, the payload passes the guard of the
    route and its user id is registered on an open socket, then one
    submission, one worker iteration and one activation of the result loop
    send exactly one frame, on that socket, carrying the worker's result
    for the payload as the result loop re-serializes it; both lists are
    empty again.  The codec is asked to read back what it wrote for this
    payload and its result, keeping the user id. *)
Theorem submission_reaches_its_socket `{JsonCodec}
    (s : System) (body payload result : jsobj) (ws : WebSocket) :
  backend_alive s = true →
  worker_alive s = true →
  available (world s) = true →
  lrange "problems" (world s) = [] →
  lrange "results" (world s) = [] →
  required_fields body = true →
  JSON_parse (JSON_stringify body) = Some payload →
  JSON_parse (JSON_stringify (result_of payload)) = Some result →
  prop result "userId" = prop body "userId" →
  wsClients (world s) !! prop body "userId" = Some ws →
  readyState (world s) ws = OPEN →
  let s' := run s [Post body; WorkerTurn; RouterTurn] in
  outbox (world s') = outbox (world s) ++ [(ws, JSON_stringify result)]
  ∧ lrange "problems" (world s') = []
  ∧ lrange "results" (world s') = []
  ∧ backend_alive s' = true
  ∧ worker_alive s' = true.
Proof.
  intros Hb Hwk Ha Hjobs Hres Hreq Hp1 Hp2 Hu Hws Hst s'. subst s'.
  change (run s [Post body; WorkerTurn; RouterTurn])
    with (step (step (step s (Post body)) WorkerTurn) RouterTurn).
  (* the submission *)
  pose proof (submit_queued body (world s) Hreq Ha) as Hsub.
  match type of Hsub with _ = Ok _ ?x => set (w1 := x) in * end.
  assert (H1 : step s (Post body) = mkSystem w1 true true).
  { unfold step. rewrite Hb, Hsub. unfold backend_ran. by rewrite Hwk. }
  assert (Hq1 : lrange "problems" w1 = [JSON_stringify body]).
  { unfold lrange in *. subst w1. simpl. rewrite lookup_insert_eq. simpl.
    by rewrite Hjobs. }
  (* the worker *)
  assert (Ha1 : available w1 = true) by exact Ha.
  pose proof (main_job w1 _ [] payload 0 Ha1 Hq1 Hp1) as Hmain.
  match type of Hmain with _ = main 0 ?x => set (w2 := x) in * end.
  assert (H2 : step (mkSystem w1 true true) WorkerTurn = mkSystem w2 true true).
  { unfold step. simpl worker_alive. simpl world. by rewrite Hmain. }
  assert (Hq2 : lrange "results" w2 = [JSON_stringify (result_of payload)]).
  { unfold lrange in *. subst w2 w1. simpl. rewrite lookup_insert_eq. simpl.
    rewrite lookup_insert_ne by done. rewrite lookup_insert_ne by done.
    by rewrite Hres. }
  (* the result loop *)
  assert (Hws2 : wsClients w2 !! prop result "userId" = Some ws)
    by (by rewrite Hu).
  assert (Ha2 : available w2 = true) by exact Ha.
  pose proof (listenForResults_send w2 _ [] result ws 0 Ha2 Hq2 Hp2 Hws2 Hst)
    as Hrouter.
  assert (Hq2' : lrange "problems" w2 = []).
  { unfold lrange in *. subst w2 w1. simpl. rewrite lookup_insert_ne by done.
    by rewrite lookup_insert_eq. }
  assert (H3 : step (mkSystem w2 true true) RouterTurn =
               backend_ran (mkSystem w2 true true) (listenForResults 1 w2))
    by reflexivity.
  rewrite H1, H2, H3, Hrouter. clear H1 H2 H3 Hrouter Hmain Hsub.
  assert (Ho2 : outbox w2 = outbox (world s)) by reflexivity.
  clearbody w2. simpl. rewrite Ho2. repeat split; try done.
  - rewrite <-Hq2'. unfold lrange. simpl. by rewrite lookup_insert_ne.
  - unfold lrange. simpl. by rewrite lookup_insert_eq.
Qed.

Lemma submission_reaches_its_socket_witness :
  let s := @run FlatJson.codec Scenario.s0
             [Connection 1; Message 1 (Scenario.registration "u1" "alice");
              Connection 2; Message 2 (Scenario.registration "u2" "bob")] in
  let s' := @run FlatJson.codec s [Post Scenario.alice_job; WorkerTurn; RouterTurn] in
  outbox (world s') =
    outbox (world s) ++ [(1, Scenario.result_text Scenario.alice_job)]
  ∧ lrange "problems" (world s') = []
  ∧ lrange "results" (world s') = []
  ∧ backend_alive s' = true
  ∧ worker_alive s' = true.
Proof.
  apply (@submission_reaches_its_socket FlatJson.codec _ Scenario.alice_job
           Scenario.alice_job (result_of Scenario.alice_job) 1);
    vm_compute; reflexivity.
Defined.

(** ** Registering and closing *)

(** X9. A socket that registers an identity and then closes leaves the
    identity unregistered: the registry is the one before the
    registration without the entries of the socket and without the entry
    of the identity, so an older socket the identity was on, even if
    still open, is not fallen back to. *)
Theorem register_then_close_unregisters `{JsonCodec}
    (w : World) (ws : WebSocket) (data : string) (msg : jsobj) :
  JSON_parse data = Some msg →
  prop msg "type" = Some "register" →
  let u := prop msg "userId" in
  let w2 := final (ws_on_close ws (final (ws_on_message ws data w))) in
  wsClients w2 = delete u (filter (λ kv, kv.2 ≠ ws) (wsClients w))
  ∧ wsClients w2 !! u = None
  ∧ (∀ k, wsClients w2 !! k ≠ Some ws).
Proof.
  intros Hp Ht u w2.
  assert (Hlook : ∀ k, wsClients w2 !! k =
            if decide (k = u) then None
            else match wsClients w !! k with
                 | Some c => if decide (c = ws) then None else Some c
                 | None => None
                 end).
  { intros k. subst w2. rewrite ws_on_close_lookup.
    unfold ws_on_message, parse, mbind, M_bind. rewrite Hp.
    rewrite decide_True by done. simpl. fold u.
    destruct (decide (k = u)) as [->|Hne].
    - rewrite lookup_insert_eq. by rewrite decide_True.
    - by rewrite lookup_insert_ne. }
  split; [|split].
  - apply map_eq. intros k. rewrite Hlook.
    destruct (decide (k = u)) as [->|Hne].
    + by rewrite lookup_delete_eq.
    + rewrite lookup_delete_ne, map_lookup_filter by done.
      destruct (wsClients w !! k) as [c|]; simpl; [|done].
      case_decide; case_guard; simpl in *; done.
  - rewrite Hlook. by rewrite decide_True.
  - intros k. rewrite Hlook. case_decide; [done|].
    destruct (wsClients w !! k) as [c|]; [|done]. case_decide; congruence.
Qed.

Lemma register_then_close_unregisters_witness :
  let w := world (@run FlatJson.codec Scenario.s0
                    [Connection 1; Message 1 (Scenario.registration "u1" "alice");
                     Connection 3]) in
  let w2 := final (ws_on_close 3
               (final (@ws_on_message FlatJson.codec 3
                         (Scenario.registration "u1" "alice") w))) in
  wsClients w !! Some "u1" = Some 1
  ∧ readyState w2 1 = OPEN
  ∧ wsClients w2 !! Some "u1" = None.
Proof.
  intros w w2. split; [vm_compute; reflexivity|]. split; [vm_compute; reflexivity|].
  destruct (@register_then_close_unregisters FlatJson.codec w 3
              (Scenario.registration "u1" "alice")
              [("type", Some "register"); ("userId", Some "u1");
               ("username", Some "alice")])
    as (_ & Hnone & _); [vm_compute; reflexivity | vm_compute; reflexivity |].
  exact Hnone.
Defined.

(** ** The worker's connection loop *)


(** ** The pipeline as a whole *)

Section Pipeline.
Context `{JsonCodec}.

Lemma pipeline_inv_frame w w' : monitor w' = monitor w → pipeline_inv w → pipeline_inv w'.
Proof. unfold pipeline_inv, pushed, popped. by intros ->. Qed.

Lemma pipeline_inv_submit body : preserves pipeline_inv (submit body).
Proof.
  intros w Hw. destruct (required_fields body) eqn:Hr;
    [destruct (available w) eqn:Ha|].
  - rewrite (submit_queued body w Hr Ha). revert Hw.
    unfold pipeline_inv, pushed, popped. simpl. rewrite !omap_app. simpl.
    by rewrite !app_nil_r.
  - by rewrite (submit_broker_down body w Hr Ha).
  - by rewrite (submit_missing body w Hr).
Qed.

Lemma pipeline_inv_pop_results : preserves pipeline_inv (blPop "results").
Proof.
  intros w Hw. unfold blPop. destruct (available w); [|done].
  destruct (lrange "results" w); [done|]. revert Hw.
  unfold pipeline_inv, pushed, popped. simpl. rewrite !omap_app. simpl.
  by rewrite !app_nil_r.
Qed.

Lemma pipeline_inv_main_1 : preserves pipeline_inv (main 1).
Proof.
  intros w Hw. destruct (available w) eqn:Ha.
  - destruct (lrange "problems" w) as [|el rest] eqn:Hq.
    + by rewrite (main_empty w 0 Ha Hq).
    + destruct (JSON_parse el) as [payload|] eqn:Hp.
      * rewrite (main_job w el rest payload 0 Ha Hq Hp). revert Hw.
        unfold pipeline_inv, pushed, popped. simpl. rewrite !omap_app. simpl.
        rewrite !app_nil_r. intros ->.
        rewrite flat_map_app. simpl. unfold outcome at 3. rewrite Hp.
        by rewrite app_nil_r.
      * rewrite (main_malformed w el rest 0 Ha Hq Hp). revert Hw.
        unfold pipeline_inv, pushed, popped. simpl. rewrite !omap_app. simpl.
        rewrite !app_nil_r. intros ->.
        rewrite flat_map_app. simpl. unfold outcome at 3. rewrite Hp.
        by rewrite !app_nil_r.
  - assert (Hr : main 1 w = Throw RedisError w).
    { simpl. apply bind_Throw. unfold blPop. by rewrite Ha. }
    by rewrite Hr.
Qed.

Lemma pipeline_inv_step s ev : pipeline_inv (world s) → pipeline_inv (world (step s ev)).
Proof.
  intros Hs.
  assert (Hc : ∀ f w, pipeline_inv w → pipeline_inv (set_console f w)) by done.
  assert (Ho : ∀ f w, pipeline_inv w → pipeline_inv (set_outbox f w)) by done.
  assert (Hm : ∀ f w, pipeline_inv w → pipeline_inv (set_wsClients f w)) by done.
  destruct ev as [ws|ws data|ws|body| | |ws st|up]; unfold step.
  - destruct (backend_alive s); [|done]. rewrite world_backend_ran.
    by apply (preserves_wss_on_connection _ Hc).
  - destruct (backend_alive s); [|done]. rewrite world_backend_ran.
    by apply (preserves_ws_on_message _ Hc Hm).
  - destruct (backend_alive s); [|done]. rewrite world_backend_ran.
    by apply (preserves_ws_on_close _ Hm).
  - destruct (backend_alive s); [|done]. rewrite world_backend_ran.
    by apply pipeline_inv_submit.
  - destruct (backend_alive s); [|done]. rewrite world_backend_ran.
    by apply (frame_listenForResults _ Hc Ho pipeline_inv_pop_results).
  - destruct (worker_alive s); [|done]. rewrite world_worker_ran.
    by apply pipeline_inv_main_1.
  - done.
  - done.
Qed.

Lemma pipeline_inv_run evs : ∀ s, pipeline_inv (world s) → pipeline_inv (world (run s evs)).
Proof.
  induction evs as [|ev evs IH]; intros s Hs; [done|].
  simpl. apply IH. by apply pipeline_inv_step.
Qed.

End Pipeline.



(** * The chat server *)

Section ChatProperties.
Context `{JsonCodec} `{Chat.DataCodec}.

Lemma broadcast_fold payload (l : list nat) : ∀ s,
  foldl (λ s' client,
           if decide (Chat.ready s' client = OPEN)
           then Chat.send client payload s' else s') s l
  = Chat.mkServer (Chat.sockets s) (Chat.clients s) (Chat.ready s)
      (Chat.sent s
       ++ ((λ c, (c, payload)) <$> filter (λ c, Chat.ready s c = OPEN) l))
      (Chat.logs s).
Proof.
  induction l as [|c l IH]; intros s.
  { simpl. rewrite app_nil_r. by destruct s. }
  simpl. destruct (decide (Chat.ready s c = OPEN)) as [Ho|Ho].
  - rewrite IH. simpl. rewrite filter_cons_True by done.
    rewrite fmap_cons, <-app_assoc. done.
  - rewrite IH. by rewrite filter_cons_False.
Qed.

Lemma broadcast_eq data s :
  Chat.broadcast data s =
  Chat.mkServer (Chat.sockets s) (Chat.clients s) (Chat.ready s)
    (Chat.sent s ++ Chat.frames data s) (Chat.logs s).
Proof. unfold Chat.broadcast. apply broadcast_fold. Qed.

Lemma Map_get_set_eq {V} k (v : V) m : Chat.Map_get k (Chat.Map_set k v m) = Some v.
Proof.
  induction m as [|[k' v'] m IH]; simpl.
  - by rewrite decide_True.
  - destruct (decide (k' = k)); simpl.
    + by rewrite decide_True.
    + by rewrite decide_False.
Qed.

Lemma Map_get_set_ne {V} k k' (v : V) m :
  k ≠ k' → Chat.Map_get k' (Chat.Map_set k v m) = Chat.Map_get k' m.
Proof.
  intros Hne. induction m as [|[k0 v0] m IH]; simpl.
  - by rewrite decide_False.
  - destruct (decide (k0 = k)) as [->|Hk]; simpl.
    + by rewrite !decide_False.
    + by rewrite IH.
Qed.

Lemma Map_get_delete_eq {V} k (m : list (nat * V)) :
  Chat.Map_get k (Chat.Map_delete k m) = None.
Proof.
  unfold Chat.Map_delete. induction m as [|[k' v'] m IH]; [done|].
  destruct (decide (k' = k)) as [->|Hne].
  - by rewrite filter_cons_False by (simpl; tauto).
  - rewrite filter_cons_True by done. simpl. by rewrite decide_False.
Qed.

Lemma Map_get_delete_ne {V} k k' (m : list (nat * V)) :
  k ≠ k' → Chat.Map_get k' (Chat.Map_delete k m) = Chat.Map_get k' m.
Proof.
  intros Hne. unfold Chat.Map_delete. induction m as [|[k0 v0] m IH]; [done|].
  destruct (decide (k0 = k)) as [->|Hk].
  - rewrite filter_cons_False by (simpl; tauto). simpl.
    by rewrite decide_False.
  - rewrite filter_cons_True by done. simpl. by rewrite IH.
Qed.

End ChatProperties.

Section ChatListeners.
Context `{JsonCodec} `{Chat.DataCodec}.

(** The listeners do not read the console. *)
Lemma chat_on_message_visible ws data now s1 s2 :
  Chat.sockets s1 = Chat.sockets s2 → Chat.clients s1 = Chat.clients s2 →
  Chat.ready s1 = Chat.ready s2 → Chat.sent s1 = Chat.sent s2 →
  Chat.visible (Chat.chat_on_message ws data now s1)
  = Chat.visible (Chat.chat_on_message ws data now s2).
Proof.
  intros Hso Hcl Hrd Hse.
  unfold Chat.chat_on_message, Chat.broadcastUsers, Chat.sender_of.
  destruct (JSON_parse data) as [payload|].
  - repeat case_decide; rewrite ?broadcast_eq; unfold Chat.visible, Chat.frames;
      simpl; by rewrite ?Hso, ?Hcl, ?Hrd, ?Hse.
  - unfold Chat.visible. simpl. by rewrite Hso, Hcl, Hse.
Qed.

End ChatListeners.

(** X12. A broadcast sends one and the same text, the serialized data, to
    the sockets of [wss.clients] that are open, each once and in the order
    of the set, and to no other; it changes nothing else. *)
Theorem chat_broadcast_reaches_exactly_the_open_sockets `{Chat.DataCodec}
    (data : Chat.Data) (s : Chat.Server) :
  let s' := Chat.broadcast data s in
  Chat.sent s' = Chat.sent s ++ Chat.frames data s
  ∧ (Chat.frames data s).*1 = filter (λ c, Chat.ready s c = OPEN) (Chat.sockets s)
  ∧ (∀ ws text, (ws, text) ∈ Chat.frames data s ↔
       ws ∈ Chat.sockets s ∧ Chat.ready s ws = OPEN ∧ text = Chat.stringify data)
  ∧ Chat.clients s' = Chat.clients s
  ∧ Chat.sockets s' = Chat.sockets s
  ∧ Chat.logs s' = Chat.logs s.
Proof.
  intros s'. subst s'. rewrite broadcast_eq. simpl.
  split; [done|]. split; [|split; [|done]].
  - unfold Chat.frames.
    generalize (filter (λ c, Chat.ready s c = OPEN) (Chat.sockets s)).
    intros l. induction l as [|c l IH]; [done|]. csimpl. by rewrite IH.
  - intros ws text. unfold Chat.frames. rewrite list_elem_of_fmap. split.
    + intros (c & Heq & Hin). simplify_eq.
      apply list_elem_of_filter in Hin. tauto.
    + intros (Hin & Ho & ->). exists ws. split; [done|].
      by apply list_elem_of_filter.
Qed.

(** X13. A message that is not JSON is caught by the listener: it logs
    one error line and changes nothing else, and what a later message does
    to the sockets, the users and the frames sent is what it would have
    done had the malformed message never arrived. *)
Theorem chat_malformed_message_is_caught `{JsonCodec} `{Chat.DataCodec}
    (ws : nat) (data now : string) (s : Chat.Server) :
  JSON_parse data = None →
  let s1 := Chat.chat_on_message ws data now s in
  s1 = Chat.log (Chat.ErrInvalid SyntaxError) s
  ∧ Chat.visible s1 = Chat.visible s
  ∧ ∀ ws' data' now',
      Chat.visible (Chat.chat_on_message ws' data' now' s1)
      = Chat.visible (Chat.chat_on_message ws' data' now' s).
Proof.
  intros Hp s1.
  assert (Hs1 : s1 = Chat.log (Chat.ErrInvalid SyntaxError) s).
  { subst s1. unfold Chat.chat_on_message. by rewrite Hp. }
  rewrite Hs1. split; [done|]. split; [done|].
  intros ws' data' now'. by apply chat_on_message_visible.
Qed.

Lemma chat_malformed_message_is_caught_witness :
  let s1 := @Chat.chat_on_message FlatJson.codec Chat.show 1 "oops" "10:00" Chat.room in
  Chat.logs s1 = [Chat.ErrInvalid SyntaxError]
  ∧ Chat.visible s1 = Chat.visible Chat.room
  ∧ Chat.visible (@Chat.chat_on_message FlatJson.codec Chat.show 1
                    (Chat.message_text "hi") "10:01" s1)
    = Chat.visible (@Chat.chat_on_message FlatJson.codec Chat.show 1
                      (Chat.message_text "hi") "10:01" Chat.room).
Proof.
  intros s1.
  destruct (@chat_malformed_message_is_caught FlatJson.codec Chat.show 1 "oops"
              "10:00" Chat.room) as (_ & Hvis & Hlater);
    [vm_compute; reflexivity|].
  split; [vm_compute; reflexivity|]. split; [exact Hvis|]. apply Hlater.
Defined.

(** X14. A join names the later messages of its socket: it puts the name
    on the socket in [clients], keeping the socket's place if it had
    joined before, broadcasts the list of names to the open sockets, and a
    message that follows from the same socket is broadcast under that
    name, with the text and the time of the message. *)
Theorem chat_join_names_later_messages `{JsonCodec} `{Chat.DataCodec}
    (ws : nat) (jdata mdata t1 t2 name : string) (j m : jsobj)
    (s : Chat.Server) :
  JSON_parse jdata = Some j →
  prop j "type" = Some "join" →
  prop j "name" = Some name →
  name ≠ "" →
  JSON_parse mdata = Some m →
  prop m "type" = Some "message" →
  let s1 := Chat.chat_on_message ws jdata t1 s in
  let s2 := Chat.chat_on_message ws mdata t2 s1 in
  Chat.clients s1 = Chat.Map_set ws (Some name) (Chat.clients s)
  ∧ Chat.Map_get ws (Chat.clients s1) = Some (Some name)
  ∧ (∀ ws', ws' ≠ ws →
       Chat.Map_get ws' (Chat.clients s1) = Chat.Map_get ws' (Chat.clients s))
  ∧ Chat.sent s1 =
      Chat.sent s ++ Chat.frames (Chat.Users (Chat.clients s1).*2) s
  ∧ Chat.sent s2 =
      Chat.sent s1 ++ Chat.frames (Chat.ChatMessage name (prop m "message") t2) s
  ∧ Chat.clients s2 = Chat.clients s1.
Proof.
  intros Hj Hjt Hjn Hne Hm Hmt s1 s2.
  assert (Hs1 : s1 =
    Chat.broadcastUsers
      (Chat.log (Chat.LogJoin (Some name))
         (Chat.set_clients (Chat.Map_set ws (Some name)) s))).
  { subst s1. unfold Chat.chat_on_message. rewrite Hj, Hjn.
    by rewrite decide_True. }
  unfold Chat.broadcastUsers in Hs1. rewrite broadcast_eq in Hs1. simpl in Hs1.
  assert (Hs2 : s2 =
    Chat.broadcast (Chat.ChatMessage name (prop m "message") t2)
      (Chat.log (Chat.LogChat name (prop m "message")) s1)).
  { subst s2. unfold Chat.chat_on_message. rewrite Hm.
    rewrite decide_False by congruence. rewrite decide_True by done.
    assert (Hsender : Chat.sender_of ws s1 = name).
    { unfold Chat.sender_of. rewrite Hs1. simpl. rewrite Map_get_set_eq.
      destruct (String.eqb_spec name ""); done. }
    by rewrite Hsender. }
  rewrite broadcast_eq in Hs2. rewrite Hs2, Hs1. simpl.
  split; [done|]. split; [apply Map_get_set_eq|].
  split; [intros ws' Hne'; by apply Map_get_set_ne|]. done.
Qed.

Lemma chat_join_names_later_messages_witness :
  let s1 := @Chat.chat_on_message FlatJson.codec Chat.show 3
              (Chat.join_text "cy") "10:00"
              (Chat.mkServer [1; 2; 3] [(1, Some "ann"); (2, Some "bob")]
                 (λ _, OPEN) [] []) in
  let s2 := @Chat.chat_on_message FlatJson.codec Chat.show 3
              (Chat.message_text "hi") "10:01" s1 in
  Chat.clients s1 = [(1, Some "ann"); (2, Some "bob"); (3, Some "cy")]
  ∧ Chat.sent s1 = [(1, "users:ann,bob,cy"); (2, "users:ann,bob,cy");
                    (3, "users:ann,bob,cy")]
  ∧ Chat.sent s2 = Chat.sent s1 ++ [(1, "message:cy:hi@10:01");
                                    (2, "message:cy:hi@10:01");
                                    (3, "message:cy:hi@10:01")].
Proof.
  intros s1 s2.
  destruct (@chat_join_names_later_messages FlatJson.codec Chat.show 3
              (Chat.join_text "cy") (Chat.message_text "hi") "10:00" "10:01" "cy"
              [("type", Some "join"); ("name", Some "cy")]
              [("type", Some "message"); ("message", Some "hi")]
              (Chat.mkServer [1; 2; 3] [(1, Some "ann"); (2, Some "bob")]
                 (λ _, OPEN) [] []))
    as (Hc & _ & _ & Hs1 & Hs2 & _);
    [vm_compute; reflexivity | reflexivity | reflexivity | discriminate
    | vm_compute; reflexivity | reflexivity |].
  split; [exact Hc|]. split; [exact Hs1|exact Hs2].
Defined.

(** X15. A socket that has not joined, or has joined without a name or
    with an empty one, chats as 'Unknown': its message is broadcast to the
    open sockets under that name, and [clients] is left as it was. *)
Theorem chat_unnamed_socket_is_Unknown `{JsonCodec} `{Chat.DataCodec}
    (ws : nat) (mdata now : string) (m : jsobj) (s : Chat.Server) :
  JSON_parse mdata = Some m →
  prop m "type" = Some "message" →
  (Chat.Map_get ws (Chat.clients s) = None
   ∨ Chat.Map_get ws (Chat.clients s) = Some None
   ∨ Chat.Map_get ws (Chat.clients s) = Some (Some "")) →
  let s' := Chat.chat_on_message ws mdata now s in
  Chat.sent s' =
    Chat.sent s ++ Chat.frames (Chat.ChatMessage "Unknown" (prop m "message") now) s
  ∧ Chat.logs s' = Chat.logs s ++ [Chat.LogChat "Unknown" (prop m "message")]
  ∧ Chat.clients s' = Chat.clients s.
Proof.
  intros Hm Hmt Hget s'. subst s'. unfold Chat.chat_on_message. rewrite Hm.
  rewrite decide_False by congruence. rewrite decide_True by done.
  assert (Hsender : Chat.sender_of ws s = "Unknown").
  { unfold Chat.sender_of. by destruct Hget as [->|[->| ->]]. }
  rewrite Hsender, broadcast_eq. done.
Qed.

Lemma chat_unnamed_socket_is_Unknown_witness :
  let s' := @Chat.chat_on_message FlatJson.codec Chat.show 3
              (Chat.message_text "hi") "10:01" Chat.room in
  Chat.sent s' = [(1, "message:Unknown:hi@10:01"); (2, "message:Unknown:hi@10:01")]
  ∧ Chat.clients s' = Chat.clients Chat.room.
Proof.
  destruct (@chat_unnamed_socket_is_Unknown FlatJson.codec Chat.show 3
              (Chat.message_text "hi") "10:01"
              [("type", Some "message"); ("message", Some "hi")] Chat.room)
    as (Hsent & _ & Hcl);
    [vm_compute; reflexivity | reflexivity | left; reflexivity |].
  split; [exact Hsent|exact Hcl].
Defined.

(** X16. The close listener forgets the socket and announces the leave
    only of a user with a name: the socket has no entry afterwards and the
    other entries are kept; if it had joined under a non-empty name the
    leave is logged and the names of those that remain are broadcast to
    the open sockets; otherwise nothing is logged or sent. *)
Theorem chat_close_forgets_and_announces `{Chat.DataCodec}
    (ws : nat) (s : Chat.Server) :
  let s' := Chat.chat_on_close ws s in
  let remaining := (Chat.Map_delete ws (Chat.clients s)).*2 in
  Chat.clients s' = Chat.Map_delete ws (Chat.clients s)
  ∧ Chat.Map_get ws (Chat.clients s') = None
  ∧ (∀ ws', ws' ≠ ws →
       Chat.Map_get ws' (Chat.clients s') = Chat.Map_get ws' (Chat.clients s))
  ∧ (∀ name, Chat.Map_get ws (Chat.clients s) = Some (Some name) → name ≠ "" →
       Chat.logs s' = Chat.logs s ++ [Chat.LogLeave name; Chat.LogUsers remaining]
       ∧ Chat.sent s' = Chat.sent s ++ Chat.frames (Chat.Users remaining) s)
  ∧ ((Chat.Map_get ws (Chat.clients s) = None
      ∨ Chat.Map_get ws (Chat.clients s) = Some None
      ∨ Chat.Map_get ws (Chat.clients s) = Some (Some "")) →
       Chat.logs s' = Chat.logs s ∧ Chat.sent s' = Chat.sent s).
Proof.
  intros s' remaining.
  assert (Hcl : Chat.clients s' = Chat.Map_delete ws (Chat.clients s)).
  { subst s'. unfold Chat.chat_on_close, Chat.broadcastUsers.
    destruct (mjoin (Chat.Map_get ws (Chat.clients s))) as [name|]; [|done].
    destruct (String.eqb name ""); [done|]. by rewrite broadcast_eq. }
  split; [done|]. rewrite Hcl.
  split; [apply Map_get_delete_eq|].
  split; [intros ws' Hne; by apply Map_get_delete_ne|]. split.
  - intros name Hget Hne. subst s'. unfold Chat.chat_on_close. rewrite Hget.
    simpl. destruct (String.eqb_spec name ""); [done|].
    unfold Chat.broadcastUsers. rewrite broadcast_eq. simpl.
    by rewrite <-app_assoc.
  - intros Hget. subst s'. unfold Chat.chat_on_close.
    by destruct Hget as [->|[->| ->]].
Qed.

Lemma chat_close_forgets_and_announces_witness :
  let s1 := @Chat.chat_on_close Chat.show 1 Chat.room_after_close in
  let s3 := @Chat.chat_on_close Chat.show 3 Chat.room in
  Chat.clients s1 = [(2, Some "bob")]
  ∧ Chat.logs s1 = [Chat.LogLeave "ann"; Chat.LogUsers [Some "bob"]]
  ∧ Chat.sent s1 = [(2, "users:bob")]
  ∧ Chat.logs s3 = [] ∧ Chat.sent s3 = [].
Proof.
  intros s1 s3.
  destruct (@chat_close_forgets_and_announces Chat.show 1 Chat.room_after_close)
    as (Hcl & _ & _ & Hnamed & _).
  destruct (Hnamed "ann" eq_refl) as (Hlogs & Hsent); [discriminate|].
  destruct (@chat_close_forgets_and_announces Chat.show 3 Chat.room)
    as (_ & _ & _ & _ & Hsilent).
  destruct (Hsilent (or_introl eq_refl)) as (Hlogs3 & Hsent3).
  split; [exact Hcl|]. split; [exact Hlogs|]. split; [exact Hsent|].
  split; [exact Hlogs3|exact Hsent3].
Defined.
